(** * Shallow embedding of [rsa.py] and of the key check of [criptochat.py]
    (Cryptography_Chat).

    Python integers are modelled by [Z], Python strings by the list of their
    code points ([list Z]), and exceptions by an explicit result type.  The
    random draws of the [random] module are explicit oracle arguments: the
    i-th draw of one call site is [azar i]. *)

From Stdlib Require Import ZArith Lia List Bool Ascii String.
From Stdlib Require Import Znumtheory Zcong.
From Stdlib Require Import Zmod.ZmodInv.
Import ListNotations.
Open Scope Z_scope.

(** ** Exceptions and results *)

(** The Python exception classes raised along the modelled paths.
    [ArithmeticError] stands for the error kind of the [modular] module
    (modulus [<= 0] in the modular power, no inverse in [inversa_mod_p]);
    [Sin_terminar] marks a [while True] loop that did not stop within the
    random draws supplied to the model (the Python program keeps running). *)
Inductive exc : Type :=
| ValueError
| AssertionError
| OverflowError
| ArithmeticError
| Sin_terminar.

Inductive result (A : Type) : Type :=
| Ok (a : A)
| Err (x : exc).
Arguments Ok {A} a.
Arguments Err {A} x.

Definition bind {A B : Type} (r : result A) (k : A -> result B) : result B :=
  match r with
  | Ok a => k a
  | Err x => Err x
  end.

Notation "'let*' x := r 'in' k" := (bind r (fun x => k))
  (at level 200, x name, r at level 100, k at level 200).

(** ** The [modular] module (not part of the sources) *)

(** Modelled from the spec: [modular.es_primo] (section 4.1), an exact
    primality test (no false negatives; false positives are ruled out here):
    [n] is prime when [n > 1] and no [k] in [2 .. n-1] divides it. *)
Definition es_primo (n : Z) : bool :=
  (1 <? n) &&
  forallb (fun k => negb (n mod k =? 0))
          (map Z.of_nat (seq 2 (Z.to_nat n - 2))).

(** Binary exponentiation on the bits of the exponent. *)
Fixpoint pow_mod_pos (b : Z) (p : positive) (m : Z) : Z :=
  match p with
  | xH => b mod m
  | xO p' => let r := pow_mod_pos b p' m in (r * r) mod m
  | xI p' => let r := pow_mod_pos b p' m in (r * r * b) mod m
  end.

(** Modelled from the spec: [modular.potencia_mod_p] (section 4.1),
    [base ^ exponent mod modulus] by binary exponentiation; it fails with an
    arithmetic error if [modulus <= 0].  A non-positive exponent runs no
    squaring step and yields [1 mod modulus]. *)
Definition potencia_mod_p (b e m : Z) : result Z :=
  if m <=? 0 then Err ArithmeticError
  else match e with
       | Zpos p => Ok (pow_mod_pos b p m)
       | _ => Ok (1 mod m)
       end.

(** Modelled from the spec: [modular.coprimos] (section 4.1), [gcd(a,b) == 1]. *)
Definition coprimos (a b : Z) : bool := Z.gcd a b =? 1.

(** Modelled from the spec: [modular.inversa_mod_p] (section 4.1), the
    inverse of [a] modulo [m] in [[0, m)] computed with the extended Euclidean
    algorithm ([Z.invmod] is built on [Z.extgcd]); it fails with a domain error
    when [gcd(a, m) <> 1]. *)
Definition inversa_mod_p (a m : Z) : result Z :=
  if coprimos a m then Ok (Z.invmod a m) else Err ArithmeticError.

(** Trial division: the least [k >= i] that divides [n] (at most [fuel]
    candidates are tried). *)
Fixpoint menor_factor_desde (fuel : nat) (i n : Z) : Z :=
  match fuel with
  | O => n
  | S f => if n mod i =? 0 then i else menor_factor_desde f (i + 1) n
  end.

Definition menor_factor (n : Z) : Z := menor_factor_desde (Z.to_nat n) 2 n.

(** Modelled from the spec: [modular.euler] (section 4.1), which factors the
    modulus into its two prime factors by trial division and returns
    [(p-1)*(q-1)]; [p] is the least factor [>= 2] and [q = n / p]. *)
Definition euler (n : Z) : Z :=
  let p := menor_factor n in
  (p - 1) * (n / p - 1).

(** ** Decimal digits *)

Fixpoint log10_aux (fuel : nat) (m : Z) : Z :=
  match fuel with
  | O => 0
  | S f => if m <? 10 then 0 else 1 + log10_aux f (m / 10)
  end.

(** [int(log10(m))] on a Python [int]: [math.log10] raises [ValueError]
    (math domain error) when [m <= 0]; otherwise the integer part of the
    decimal logarithm, computed here exactly (the rounding of the float
    logarithm is not modelled). *)
Definition int_log10 (m : Z) : result Z :=
  if m <=? 0 then Err ValueError
  else Ok (log10_aux (S (Z.to_nat (Z.log2 m))) m).

Fixpoint cifras_aux (fuel : nat) (m : Z) (acc : list Z) : list Z :=
  match fuel with
  | O => m :: acc
  | S f => if m <? 10 then m :: acc else cifras_aux f (m / 10) (m mod 10 :: acc)
  end.

(** [str(m)] for [m >= 0]: the decimal digits, most significant first, each
    character ['0'..'9'] written as its value. *)
Definition str_Z (m : Z) : list Z := cifras_aux (S (Z.to_nat (Z.log2 m))) m [].

(** [int(s)] for a string of decimal digits. *)
Definition int_of_str (ds : list Z) : Z := fold_left (fun acc x => acc * 10 + x) ds 0.

(** ** [rsa.py] : padding *)

(** [aplicar_padding(m, digitos_padding)]; [azar i] is the i-th draw of
    [random.randint(0, 9)], whose [str] is one digit. *)
Definition aplicar_padding (m digitos_padding : Z) (azar : nat -> Z) : result Z :=
  if (digitos_padding <? 0) || (m <? 0) then Err ValueError
  else Ok (int_of_str (str_Z m ++ map azar (seq 0 (Z.to_nat digitos_padding)))).

(** [eliminar_padding(m, digitos_padding)]: the chained comparison
    [0 <= digitos_padding < int(log10(m)) + 1] evaluates [log10(m)] only when
    [0 <= digitos_padding]. *)
Definition eliminar_padding (m digitos_padding : Z) : result Z :=
  if negb (0 <=? digitos_padding) then Err ValueError
  else let* l := int_log10 m in
       if digitos_padding <? l + 1 then Ok (m / 10 ^ digitos_padding)
       else Err ValueError.

(** ** [rsa.py] : one value *)

Definition cifrar_rsa (m n e digitos_padding : Z) (azar : nat -> Z) : result Z :=
  if (m <? 0) || (n <? 0) || (e <? 0) || (digitos_padding <? 0) then Err ValueError
  else let* lm := int_log10 m in
       let* ln := int_log10 n in
       if lm + 1 + digitos_padding <? ln + 1 then
         let* m' := aplicar_padding m digitos_padding azar in
         potencia_mod_p m' e n
       else Err AssertionError.

Definition descifrar_rsa (c n d digitos_padding : Z) : result Z :=
  let* c' := potencia_mod_p c d n in
  eliminar_padding c' digitos_padding.

(** ** [rsa.py] : strings *)

(** Python's [chr(i)]: [OverflowError] outside the C [int] range,
    [ValueError] outside [[0, 0x10FFFF]]. *)
Definition chr (i : Z) : result Z :=
  if (i <? -2147483648) || (2147483647 <? i) then Err OverflowError
  else if (0 <=? i) && (i <=? 1114111) then Ok i else Err ValueError.

(** [cifrar_cadena_rsa(s, n, e, digitos_padding)]: the list comprehension
    over the characters; [azar j] are the padding draws of the j-th one. *)
Fixpoint cifrar_cadena_desde (s : list Z) (n e digitos_padding : Z)
    (azar : nat -> nat -> Z) (j : nat) : result (list Z) :=
  match s with
  | [] => Ok []
  | ch :: r =>
      let* c := cifrar_rsa ch n e digitos_padding (azar j) in
      let* cs := cifrar_cadena_desde r n e digitos_padding azar (S j) in
      Ok (c :: cs)
  end.

Definition cifrar_cadena_rsa (s : list Z) (n e digitos_padding : Z)
    (azar : nat -> nat -> Z) : result (list Z) :=
  cifrar_cadena_desde s n e digitos_padding azar O.

(** [descifrar_cadena_rsa(clist, n, d, digitos_padding)]: the generator
    [chr(descifrar_rsa(c, n, d, digitos_padding)) for c in clist] consumed by
    [str.join]; an exception leaves the join. *)
Fixpoint descifrar_cadena_rsa (clist : list Z) (n d digitos_padding : Z)
    : result (list Z) :=
  match clist with
  | [] => Ok []
  | c :: r =>
      let* m := descifrar_rsa c n d digitos_padding in
      let* ch := chr m in
      let* rest := descifrar_cadena_rsa r n d digitos_padding in
      Ok (ch :: rest)
  end.

(** ** [rsa.py] : key recovery *)

(** [romper_clave(n, e)]: [assert 1 < e < (phi := modular.euler(n)) and
    modular.coprimos(phi, e)]; the chained comparison stops at [1 < e]. *)
Definition romper_clave (n e : Z) : result Z :=
  if 1 <? e then
    let phi := euler n in
    if (e <? phi) && coprimos phi e then inversa_mod_p e phi
    else Err AssertionError
  else Err AssertionError.

(** ** [rsa.py] : primes *)

(** The first prime of the window [[a, a + 2^k)], searched left to right. *)
Fixpoint primero_en (k : nat) (a : Z) : option Z :=
  match k with
  | O => if es_primo a then Some a else None
  | S k' =>
      match primero_en k' a with
      | Some p => Some p
      | None => primero_en k' (a + 2 ^ Z.of_nat k')
      end
  end.

Fixpoint zfact (k : nat) : Z :=
  match k with
  | O => 1
  | S k' => Z.of_nat k * zfact k'
  end.

(** Width (as a power of two) of a window above [n] that holds a prime: every
    prime factor of [n! + 1] is larger than [n]. *)
Definition cota_primo (n : Z) : nat :=
  S (Z.to_nat (Z.log2 (2 * Z.abs n + zfact (Z.to_nat n) + 2))).

(** [siguiente_primo(n)]: [n += 1; while not es_primo(n): n += 1].  The
    unbounded scan is run over the window [[n+1, n+1 + 2^cota_primo n)], which
    contains a prime, so the last branch is never taken. *)
Definition siguiente_primo (n : Z) : Z :=
  match primero_en (cota_primo n) (n + 1) with
  | Some p => p
  | None => n + 1
  end.

Fixpoint bajar_primo (fuel : nat) (n : Z) : Z :=
  match fuel with
  | O => n
  | S f => if es_primo n then n else bajar_primo f (n - 1)
  end.

(** [anterior_primo(n)]: [None] is the sentinel [modular.NE], a float (the
    [isinstance(p, float)] test of [generar_numeros_primos]), returned when
    [n <= 2]; otherwise the scan [n -= 1; while not es_primo(n): n -= 1],
    which stops at 2 at the latest. *)
Definition anterior_primo (n : Z) : option Z :=
  if 2 <? n then Some (bajar_primo (Z.to_nat n) (n - 1)) else None.

(** [while p in output_primos: p = siguiente_primo(p)] *)
Fixpoint subir (fuel : nat) (out : list Z) (p : Z) : Z :=
  match fuel with
  | O => p
  | S f => if existsb (Z.eqb p) out then subir f out (siguiente_primo p) else p
  end.

(** [while p in output_primos: p = anterior_primo(p)]; the sentinel is in no
    list of integers. *)
Fixpoint bajar (fuel : nat) (out : list Z) (p : option Z) : option Z :=
  match p with
  | None => None
  | Some x =>
      match fuel with
      | O => Some x
      | S f => if existsb (Z.eqb x) out then bajar f out (anterior_primo x) else Some x
      end
  end.

(** One iteration of the [for n in lista_aleatorios] loop, with the primes
    already chosen in [out]. *)
Definition paso (min_primo max_primo : Z) (out : list Z) (n : Z) : result Z :=
  let p := subir (S (List.length out)) out (siguiente_primo n) in
  let p' := if max_primo <=? p
            then bajar (S (List.length out)) out (anterior_primo max_primo)
            else Some p in
  match p' with
  | None => Err ValueError
  | Some x => if x <? min_primo then Err ValueError else Ok x
  end.

Fixpoint elegir (min_primo max_primo : Z) (out : list Z) (semillas : list Z)
    : result (list Z) :=
  match semillas with
  | [] => Ok out
  | n :: r =>
      let* p := paso min_primo max_primo out n in
      elegir min_primo max_primo (out ++ [p]) r
  end.

(** The two return shapes: [output_primos[0]] or [tuple(output_primos)]. *)
Inductive salida : Type :=
| Primo (p : Z)
| Tupla (ps : list Z).

Definition primos_de (s : salida) : list Z :=
  match s with
  | Primo p => [p]
  | Tupla ps => ps
  end.

(** [generar_numeros_primos(min_primo, max_primo, numero)]; [azar i] is the
    i-th draw of [random.randint(min_primo - 1, max_primo)]. *)
Definition generar_numeros_primos (min_primo max_primo numero : Z)
    (azar : nat -> Z) : result salida :=
  if numero <? 1 then Err ValueError
  else if max_primo <? min_primo then Err ValueError
  else
    let* out := elegir min_primo max_primo [] (map azar (seq 0 (Z.to_nat numero))) in
    Ok (match out with
        | [p] => Primo p
        | _ => Tupla out
        end).

(** The [while True] loop drawing [e = random.randrange(1, phi, 2)] until
    [modular.coprimos(phi, e)]; [azar i] is the i-th draw, [randrange] raises
    [ValueError] on the empty range [phi <= 1]. *)
Fixpoint buscar_e (phi : Z) (azar : nat -> Z) (i : nat) (fuel : nat) : result Z :=
  match fuel with
  | O => Err Sin_terminar
  | S f =>
      if phi <=? 1 then Err ValueError
      else let e := azar i in
           if coprimos phi e then Ok e else buscar_e phi azar (S i) f
  end.

(** [generar_claves(min_primo, max_primo)]: [azar_p] are the draws of
    [generar_numeros_primos], [azar_e phi] those of [randrange(1, phi, 2)],
    [intentos] the number of loop iterations examined. *)
Definition generar_claves (min_primo max_primo : Z) (azar_p : nat -> Z)
    (azar_e : Z -> nat -> Z) (intentos : nat) : result (Z * Z * Z) :=
  let* s := generar_numeros_primos min_primo max_primo 2 azar_p in
  match s with
  | Tupla [primo_1; primo_2] =>
      let n := primo_1 * primo_2 in
      let phi := (primo_1 - 1) * (primo_2 - 1) in
      let* e := buscar_e phi (azar_e phi) O intentos in
      let* d := inversa_mod_p e phi in
      Ok (n, e, d)
  | _ => Err ValueError
  end.

(** ** [criptochat.py] *)

Definition PADDING_DIGITS : Z := 10.

Definition codigos (s : string) : list Z :=
  map (fun a => Z.of_nat (nat_of_ascii a)) (list_ascii_of_string s).

Definition test_message : list Z := codigos "test-message".

(** [valid(n, e, d)]: the round trip of ["test-message"]; only
    [OverflowError] is caught.  [azar] are the padding draws. *)
Definition valid (n e d : Z) (azar : nat -> nat -> Z) : result bool :=
  match (let* c := cifrar_cadena_rsa test_message n e PADDING_DIGITS azar in
         descifrar_cadena_rsa c n d PADDING_DIGITS) with
  | Ok s => Ok (if list_eq_dec Z.eq_dec test_message s then true else false)
  | Err OverflowError => Ok false
  | Err x => Err x
  end.

Definition MENSAJE_CORRUPTO : list Z := codigos "MENSAJE CORRUPTO".

(** The text [User.check_inbox] shows for one inbox entry: [None] (a message
    corrupted earlier) and a [ValueError] of [descifrar_cadena_rsa] give the
    marker; any other exception leaves [check_inbox]. *)
Definition texto_entrada (message : option (list Z)) (n d : Z) : result (list Z) :=
  match message with
  | None => Ok MENSAJE_CORRUPTO
  | Some clist =>
      match descifrar_cadena_rsa clist n d PADDING_DIGITS with
      | Ok s => Ok s
      | Err ValueError => Ok MENSAJE_CORRUPTO
      | Err x => Err x
      end
  end.

(** ** Decimal digit count *)

(** [len(str(v))] for [v >= 0]: the number of decimal digits of [v]. *)
Definition num_cifras (v : Z) : Z := Z.of_nat (List.length (str_Z v)).

(** Pairwise distinct primes of [[min_primo, max_primo)]. *)
Definition primos_validos (min_primo max_primo : Z) (l : list Z) : Prop :=
  NoDup l /\ forall x, In x l -> Z.prime x /\ min_primo <= x < max_primo.

(** The contract of [random.randrange(1, phi, 2)]: an odd draw in [[1, phi)]. *)
Definition randrange_impar (azar_e : Z -> nat -> Z) : Prop :=
  forall phi i, 2 <= phi -> 1 <= azar_e phi i < phi /\ Z.odd (azar_e phi i) = true.

(** The contract of [random.randint(0, 9)]. *)
Definition digitos_azar (azar : nat -> Z) : Prop := forall i, 0 <= azar i <= 9.

(** The primes of [[min_primo, max_primo)]. *)
Definition primos_en (min_primo max_primo : Z) : list Z :=
  filter es_primo
    (map (fun i => min_primo + Z.of_nat i) (seq 0 (Z.to_nat (max_primo - min_primo)))).

(** One element of [descifrar_cadena_rsa]: [chr(descifrar_rsa(c, n, d, k))]. *)
Definition descifrar_caracter (c n d digitos_padding : Z) : result Z :=
  let* m := descifrar_rsa c n d digitos_padding in chr m.

(** Concrete draws used to run the functions on examples. *)
Definition az_p (i : nat) : Z := 40 + 7 * Z.of_nat i.

Definition az_e (phi : Z) (i : nat) : Z := 1 + 2 * ((Z.of_nat i + 3) mod (phi / 2)).

Definition az_d (i : nat) : Z := 5.

(** ** [rsa.py] : the attack *)

(** [ataque_texto_plano(clist, n, e)]: [d = romper_clave(n, e)], then
    [descifrar_cadena_rsa(clist, n, d, digitos_padding=0)]. *)
Definition ataque_texto_plano (clist : list Z) (n e : Z) : result (list Z) :=
  let* d := romper_clave n e in descifrar_cadena_rsa clist n d 0.

(** ** [criptochat.py] : users and inboxes *)

(** The exceptions met in [criptochat.py]: those of [rsa.py] and
    [UserNotFound]. *)
Inductive exc_chat : Type :=
| Exc (x : exc)
| UserNotFound.

Inductive result_chat (A : Type) : Type :=
| Bien (a : A)
| Fallo (x : exc_chat).

Arguments Bien {A} a.
Arguments Fallo {A} x.

(** An inbox container [(username_id, date, message)]: the sender's id, the
    date string and the list of ciphertexts, [None] once corrupted. *)
Definition contenedor : Type := Z * list Z * option (list Z).

(** The dictionary [USERS], from user ids to the users' names (the only
    attribute [check_inbox] reads). *)
Definition usuarios : Type := list (Z * list Z).

(** [find_user(username_id)]: the registered user or [UserNotFound]. *)
Definition find_user (us : usuarios) (username_id : Z) : result_chat (list Z) :=
  match find (fun u => Z.eqb (fst u) username_id) us with
  | Some (_, username) => Bien username
  | None => Fallo UserNotFound
  end.

(** The loop of [User.check_inbox] over the containers; [padding] is the
    current value of the global [PADDING_DIGITS]. *)
Fixpoint descifrar_inbox (us : usuarios) (inbox : list contenedor) (n d padding : Z)
    : result_chat (list (list Z * list Z * list Z)) :=
  match inbox with
  | [] => Bien []
  | (username_id, date, message) :: r =>
      match find_user us username_id with
      | Fallo x => Fallo x
      | Bien username =>
          let texto :=
            match message with
            | None => Bien MENSAJE_CORRUPTO
            | Some m =>
                match descifrar_cadena_rsa m n d padding with
                | Ok t => Bien t
                | Err ValueError => Bien MENSAJE_CORRUPTO
                | Err x => Fallo (Exc x)
                end
            end in
          match texto with
          | Fallo x => Fallo x
          | Bien t =>
              match descifrar_inbox us r n d padding with
              | Fallo x => Fallo x
              | Bien rest => Bien ((username, date, t) :: rest)
              end
          end
      end
  end.

(** [User.check_inbox()] with [(n, d) = self.user_key.private_key]: [None]
    for an inbox that is [None]. *)
Definition check_inbox (us : usuarios) (inbox : option (list contenedor)) (n d padding : Z)
    : result_chat (option (list (list Z * list Z * list Z))) :=
  match inbox with
  | None => Bien None
  | Some l =>
      match descifrar_inbox us l n d padding with
      | Bien r => Bien (Some r)
      | Fallo x => Fallo x
      end
  end.

(** [send_message(shipper_user, receiver_user, message)]: the receiver's
    inbox afterwards, [(n, e)] being the receiver's public key.  A failed
    encryption leaves the inbox as it was (the [finally: return None] drops
    any exception); otherwise a [None] inbox becomes [[]] and the container
    is appended. *)
Definition send_message (shipper_id : Z) (inbox : option (list contenedor))
    (n e padding : Z) (message date : list Z) (azar : nat -> nat -> Z)
    : option (list contenedor) :=
  match cifrar_cadena_rsa message n e padding azar with
  | Ok encrypted_message =>
      Some (match inbox with None => [] | Some l => l end ++
            [(shipper_id, date, Some encrypted_message)])
  | Err _ => inbox
  end.

(** [catch(rsa.descifrar_cadena_rsa, lambda message: None, ...)] applied to a
    container's message, [None] staying [None]. *)
Definition catch_descifrar (message : option (list Z)) (n d padding : Z) : option (list Z) :=
  match message with
  | None => None
  | Some m =>
      match descifrar_cadena_rsa m n d padding with
      | Ok t => Some t
      | Err _ => None
      end
  end.

(** The second loop of [change_inbox_key] and [change_inbox_padding]: each
    plain message is encrypted again and appended to [self.inbox] ([acc]);
    an exception in [captura] gives a [None] message, any other one leaves
    the method with the containers appended so far.  [azar j] are the
    padding draws of the j-th container. *)
Fixpoint recifrar (captura : exc -> bool) (temp : list contenedor) (n e padding : Z)
    (azar : nat -> nat -> nat -> Z) (j : nat) (acc : list contenedor)
    : list contenedor * option exc :=
  match temp with
  | [] => (acc, None)
  | (username_id, date, message) :: r =>
      match message with
      | None => recifrar captura r n e padding azar (S j) (acc ++ [(username_id, date, None)])
      | Some m =>
          match cifrar_cadena_rsa m n e padding (azar j) with
          | Ok c => recifrar captura r n e padding azar (S j)
                      (acc ++ [(username_id, date, Some c)])
          | Err x =>
              if captura x
              then recifrar captura r n e padding azar (S j) (acc ++ [(username_id, date, None)])
              else (acc, Some x)
          end
      end
  end.

Definition es_assertion (x : exc) : bool :=
  match x with AssertionError => true | _ => false end.

Definition es_value_o_assertion (x : exc) : bool :=
  match x with ValueError | AssertionError => true | _ => false end.

(** The first loop: every message decrypted with the old key, or [None]. *)
Definition descifrar_temp (l : list contenedor) (n d padding : Z) : list contenedor :=
  map (fun c => let '(username_id, date, message) := c in
                (username_id, date, catch_descifrar message n d padding)) l.

(** [User.change_inbox_key(prev_n, prev_d, new_n, new_e)]: the inbox
    afterwards and the exception that leaves the method, if any. *)
Definition change_inbox_key (inbox : option (list contenedor))
    (prev_n prev_d new_n new_e padding : Z) (azar : nat -> nat -> nat -> Z)
    : option (list contenedor) * option exc :=
  match inbox with
  | None => (None, None)
  | Some [] => (Some [], None)
  | Some l =>
      let '(nuevo, ex) :=
        recifrar es_assertion (descifrar_temp l prev_n prev_d padding) new_n new_e padding azar O []
      in (Some nuevo, ex)
  end.

(** [User.change_inbox_padding(padding_digits)] with [(n, e, d)] the user's
    key and [padding] the current [PADDING_DIGITS]. *)
Definition change_inbox_padding (inbox : option (list contenedor)) (n e d padding padding_digits : Z)
    (azar : nat -> nat -> nat -> Z) : option (list contenedor) * option exc :=
  match inbox with
  | None => (None, None)
  | Some [] => (Some [], None)
  | Some l =>
      let '(nuevo, ex) :=
        recifrar es_value_o_assertion (descifrar_temp l n d padding) n e padding_digits azar O []
      in (Some nuevo, ex)
  end.

(** A [User]: its name, its [UserKey] as [(n, e, d)] (what [get_all_keys]
    returns), its id and its inbox. *)
Record user : Type := mkUser {
  username : list Z;
  user_key : Z * Z * Z;
  user_id : Z;
  inbox : option (list contenedor)
}.

(** [User.change_user_keys(n, e, d, checked)] at the module's
    [PADDING_DIGITS]: the user afterwards and the exception that leaves the
    method, if any.  [azar_v] are the padding draws of [valid] and [azar]
    those of [change_inbox_key].  [USERS[self.id]] is the same object, so
    the returned user is also the one in [USERS]. *)
Definition change_user_keys (u : user) (n e d : Z) (checked : bool)
    (azar_v : nat -> nat -> Z) (azar : nat -> nat -> nat -> Z) : user * option exc :=
  let comprobado :=
    if checked then Ok tt
    else match valid n e d azar_v with
         | Ok true => Ok tt
         | Ok false => Err AssertionError
         | Err x => Err x
         end in
  match comprobado with
  | Err x => (u, Some x)
  | Ok _ =>
      let '(prev_n, _, prev_d) := user_key u in
      let '(inbox', ex) := change_inbox_key (inbox u) prev_n prev_d n e PADDING_DIGITS azar in
      match ex with
      | Some x => (mkUser (username u) (user_key u) (user_id u) inbox', Some x)
      | None => (mkUser (username u) (n, e, d) (user_id u) inbox', None)
      end
  end.

(** ** RSA keys and prime certificates *)

(** The keypair invariant of [generar_claves]: [n = p * q] for distinct
    primes, [e * d = 1] modulo [(p - 1) * (q - 1)]. *)
Definition clave_rsa (n e d : Z) : Prop :=
  exists p q, Z.prime p /\ Z.prime q /\ p <> q /\ n = p * q /\ 0 <= e /\ 0 <= d /\
              (e * d) mod ((p - 1) * (q - 1)) = 1.

(** Trial division by [i, i+1, ...] while [i * i <= n], to certify the
    primes of examples. *)
Fixpoint sin_divisor (fuel : nat) (i n : Z) : bool :=
  match fuel with
  | O => false
  | S f => if n <? i * i then true
           else negb (n mod i =? 0) && sin_divisor f (i + 1) n
  end.

Definition primo_rapido (n : Z) : bool :=
  (1 <? n) && sin_divisor (Z.to_nat (Z.sqrt n + 1)) 2 n.

(** * Properties of the model *)

(** ** Primality *)

Lemma in_rango_2 (n k : Z) :
  In k (map Z.of_nat (seq 2 (Z.to_nat n - 2))) <-> 2 <= k < n.
Proof.
  rewrite in_map_iff. split.
  - intros [x [<- Hx]]. apply in_seq in Hx. lia.
  - intros Hk. exists (Z.to_nat k). split; [lia|]. apply in_seq. lia.
Qed.

Lemma es_primo_spec (n : Z) : es_primo n = true <-> Z.prime n.
Proof.
  unfold es_primo, Z.prime. rewrite andb_true_iff, Z.ltb_lt, forallb_forall.
  split.
  - intros [H1 H2]. split; [exact H1|]. intros k Hk Hd.
    specialize (H2 k (proj2 (in_rango_2 n k) ltac:(lia))).
    apply Z.mod_divide in Hd; [|lia]. rewrite Hd in H2. discriminate.
  - intros [H1 H2]. split; [exact H1|]. intros k Hk. apply in_rango_2 in Hk.
    apply negb_true_iff, Z.eqb_neq. intros Hm. apply (H2 k); [lia|].
    apply Z.mod_divide; [lia|exact Hm].
Qed.

Lemma es_primo_false (n : Z) : es_primo n = false <-> ~ Z.prime n.
Proof.
  rewrite <- es_primo_spec. destruct (es_primo n); split; congruence.
Qed.

(** ** Modular power *)

Lemma mod_sq (a m : Z) : m <> 0 -> (a mod m * (a mod m)) mod m = (a * a) mod m.
Proof.
  intros Hm. rewrite (Z.mul_mod_idemp_l a (a mod m) m Hm).
  apply Z.mul_mod_idemp_r; exact Hm.
Qed.

Lemma mod_sq_mul (a c m : Z) : m <> 0 ->
  (a mod m * (a mod m) * c) mod m = (a * a * c) mod m.
Proof.
  intros Hm. rewrite <- (Z.mul_mod_idemp_l (a mod m * (a mod m)) c m Hm).
  rewrite (mod_sq a m Hm). apply Z.mul_mod_idemp_l; exact Hm.
Qed.

Lemma pow_mod_pos_spec (b : Z) (p : positive) (m : Z) :
  0 < m -> pow_mod_pos b p m = b ^ Z.pos p mod m.
Proof.
  intros Hm. induction p as [p IH|p IH|]; simpl pow_mod_pos.
  - rewrite IH, mod_sq_mul by lia.
    replace (Z.pos p~1) with (Z.pos p + Z.pos p + 1) by lia.
    rewrite !Z.pow_add_r, Z.pow_1_r by lia. reflexivity.
  - rewrite IH, mod_sq by lia.
    replace (Z.pos p~0) with (Z.pos p + Z.pos p) by lia.
    rewrite Z.pow_add_r by lia. reflexivity.
  - rewrite Z.pow_1_r. reflexivity.
Qed.

Lemma potencia_mod_p_spec (b e m : Z) :
  0 < m -> 0 <= e -> potencia_mod_p b e m = Ok (b ^ e mod m).
Proof.
  intros Hm He. unfold potencia_mod_p.
  destruct (Z.leb_spec m 0); [lia|].
  destruct e as [|p|p]; [reflexivity| |lia].
  rewrite pow_mod_pos_spec by exact Hm. reflexivity.
Qed.

(** ** Decimal digits *)

Lemma pow10_succ (a : Z) : 0 <= a -> 10 ^ (a + 1) = 10 * 10 ^ a.
Proof. intros Ha. rewrite Z.pow_add_r, Z.pow_1_r by lia. ring. Qed.

Lemma log10_aux_spec (fuel : nat) (m : Z) :
  0 < m < 10 ^ Z.of_nat fuel ->
  0 <= log10_aux fuel m /\
  10 ^ log10_aux fuel m <= m < 10 ^ (log10_aux fuel m + 1).
Proof.
  revert m. induction fuel as [|f IH]; intros m Hm; cbn [log10_aux].
  - simpl in Hm. lia.
  - destruct (Z.ltb_spec m 10).
    + simpl. lia.
    + rewrite Nat2Z.inj_succ, Z.pow_succ_r in Hm by lia.
      assert (Hd : m = 10 * (m / 10) + m mod 10) by (apply Z.div_mod; lia).
      assert (Hr : 0 <= m mod 10 < 10) by (apply Z.mod_pos_bound; lia).
      destruct (IH (m / 10)) as (H0 & H1 & H2).
      { split; [apply Z.div_str_pos; lia|]. apply Z.div_lt_upper_bound; lia. }
      set (L := log10_aux f (m / 10)) in *.
      assert (E1 : 10 ^ (L + 1) = 10 * 10 ^ L) by (apply pow10_succ; lia).
      assert (E2 : 10 ^ (1 + L) = 10 * 10 ^ L) by (rewrite Z.add_comm; exact E1).
      assert (E3 : 10 ^ (1 + L + 1) = 10 * 10 ^ (L + 1))
        by (replace (1 + L + 1) with ((L + 1) + 1) by ring; apply pow10_succ; lia).
      rewrite E2, E3, E1. rewrite E1 in H2. lia.
Qed.

Lemma pow10_unique (a b v : Z) : 0 <= a -> 0 <= b ->
  10 ^ a <= v < 10 ^ (a + 1) -> 10 ^ b <= v < 10 ^ (b + 1) -> a = b.
Proof.
  intros Ha Hb H1 H2.
  destruct (Z.lt_total a b) as [Hlt|[Heq|Hlt]]; [|exact Heq|].
  - assert (10 ^ (a + 1) <= 10 ^ b) by (apply Z.pow_le_mono_r; lia). lia.
  - assert (10 ^ (b + 1) <= 10 ^ a) by (apply Z.pow_le_mono_r; lia). lia.
Qed.

Lemma fuel_cifras (m : Z) : 0 < m -> 0 < m < 10 ^ Z.of_nat (S (Z.to_nat (Z.log2 m))).
Proof.
  intros Hm. split; [exact Hm|].
  pose proof (Z.log2_spec m Hm) as [_ H]. pose proof (Z.log2_nonneg m).
  rewrite Nat2Z.inj_succ, Z2Nat.id by lia.
  eapply Z.lt_le_trans; [exact H|]. apply Z.pow_le_mono_l. lia.
Qed.

Lemma int_log10_spec (m : Z) : 0 < m ->
  exists L, int_log10 m = Ok L /\ 0 <= L /\ 10 ^ L <= m < 10 ^ (L + 1).
Proof.
  intros Hm. unfold int_log10. destruct (Z.leb_spec m 0); [lia|].
  eexists; split; [reflexivity|]. apply log10_aux_spec, fuel_cifras, Hm.
Qed.

Lemma int_log10_char (m L : Z) : 0 <= L -> 10 ^ L <= m < 10 ^ (L + 1) ->
  int_log10 m = Ok L.
Proof.
  intros HL Hb. assert (Hm : 0 < m).
  { pose proof (Z.pow_pos_nonneg 10 L). lia. }
  destruct (int_log10_spec m Hm) as (L' & -> & H0 & H1).
  f_equal. apply (pow10_unique L' L m); assumption.
Qed.

Lemma int_log10_nonpos (m : Z) : m <= 0 -> int_log10 m = Err ValueError.
Proof.
  intros Hm. unfold int_log10. destruct (Z.leb_spec m 0); [reflexivity|lia].
Qed.

(** ** Decimal strings *)

Lemma cifras_aux_length (fuel : nat) (m : Z) (acc : list Z) :
  Z.of_nat (List.length (cifras_aux fuel m acc)) =
  Z.of_nat (List.length acc) + 1 + log10_aux fuel m.
Proof.
  revert m acc. induction fuel as [|f IH]; intros m acc; cbn [cifras_aux log10_aux].
  - cbn [List.length]. lia.
  - destruct (m <? 10).
    + cbn [List.length]. lia.
    + rewrite IH. cbn [List.length]. lia.
Qed.

Lemma fold_val (ds : list Z) (acc : Z) :
  fold_left (fun a x => a * 10 + x) ds acc =
  acc * 10 ^ Z.of_nat (List.length ds) + int_of_str ds.
Proof.
  unfold int_of_str. revert acc. induction ds as [|x r IH]; intros acc.
  - simpl. ring.
  - cbn [fold_left List.length]. rewrite (IH (acc * 10 + x)), (IH (0 * 10 + x)).
    rewrite Nat2Z.inj_succ, Z.pow_succ_r by lia. ring.
Qed.

Lemma int_of_str_cons (x : Z) (r : list Z) :
  int_of_str (x :: r) = x * 10 ^ Z.of_nat (List.length r) + int_of_str r.
Proof. unfold int_of_str at 1. cbn [fold_left]. rewrite fold_val. ring. Qed.

Lemma int_of_str_app (a b : list Z) :
  int_of_str (a ++ b) = int_of_str a * 10 ^ Z.of_nat (List.length b) + int_of_str b.
Proof. unfold int_of_str at 1. rewrite fold_left_app, fold_val. reflexivity. Qed.

Lemma cifras_aux_val (fuel : nat) (m : Z) (acc : list Z) :
  int_of_str (cifras_aux fuel m acc) =
  m * 10 ^ Z.of_nat (List.length acc) + int_of_str acc.
Proof.
  revert m acc. induction fuel as [|f IH]; intros m acc; cbn [cifras_aux].
  - apply int_of_str_cons.
  - destruct (m <? 10); [apply int_of_str_cons|].
    rewrite IH, int_of_str_cons. cbn [List.length].
    rewrite Nat2Z.inj_succ, Z.pow_succ_r by lia.
    rewrite (Z.div_mod m 10) at 3 by lia. ring.
Qed.

Lemma int_of_str_str_Z (m : Z) : int_of_str (str_Z m) = m.
Proof.
  unfold str_Z. rewrite cifras_aux_val.
  change (Z.of_nat (List.length (@nil Z))) with 0. change (int_of_str []) with 0.
  ring.
Qed.

Lemma int_of_str_bound (ds : list Z) :
  Forall (fun x => 0 <= x <= 9) ds ->
  0 <= int_of_str ds < 10 ^ Z.of_nat (List.length ds).
Proof.
  induction 1 as [|x r Hx Hr IH].
  - simpl. unfold int_of_str. simpl. lia.
  - rewrite int_of_str_cons. cbn [List.length].
    rewrite Nat2Z.inj_succ, Z.pow_succ_r by lia. nia.
Qed.

Lemma num_cifras_spec (v : Z) : 0 < v ->
  int_log10 v = Ok (num_cifras v - 1) /\ 1 <= num_cifras v /\
  10 ^ (num_cifras v - 1) <= v < 10 ^ num_cifras v.
Proof.
  intros Hv. unfold num_cifras, str_Z. rewrite cifras_aux_length. simpl List.length.
  pose proof (log10_aux_spec _ v (fuel_cifras v Hv)) as (H0 & H1 & H2).
  replace (Z.of_nat 0 + 1 + log10_aux (S (Z.to_nat (Z.log2 v))) v - 1)
    with (log10_aux (S (Z.to_nat (Z.log2 v))) v) by lia.
  replace (Z.of_nat 0 + 1 + log10_aux (S (Z.to_nat (Z.log2 v))) v)
    with (log10_aux (S (Z.to_nat (Z.log2 v))) v + 1) by lia.
  unfold int_log10. destruct (Z.leb_spec v 0); [lia|].
  split; [reflexivity|]. lia.
Qed.

Lemma num_cifras_char (v c : Z) : 1 <= c -> 10 ^ (c - 1) <= v < 10 ^ c ->
  num_cifras v = c.
Proof.
  intros Hc Hb. assert (Hv : 0 < v) by (pose proof (Z.pow_pos_nonneg 10 (c - 1)); lia).
  destruct (num_cifras_spec v Hv) as (_ & H1 & H2).
  enough (num_cifras v - 1 = c - 1) by lia.
  apply (pow10_unique _ _ v); try lia.
  - replace (num_cifras v - 1 + 1) with (num_cifras v) by ring. exact H2.
  - replace (c - 1 + 1) with c by ring. exact Hb.
Qed.

(** ** Padding *)

Lemma aplicar_padding_spec (m k : Z) (azar : nat -> Z) : 0 <= m -> 0 <= k ->
  aplicar_padding m k azar =
  Ok (m * 10 ^ k + int_of_str (map azar (seq 0 (Z.to_nat k)))).
Proof.
  intros Hm Hk. unfold aplicar_padding.
  destruct (Z.ltb_spec k 0); [lia|]. destruct (Z.ltb_spec m 0); [lia|]. simpl.
  rewrite int_of_str_app, int_of_str_str_Z, length_map, length_seq, Z2Nat.id by lia.
  reflexivity.
Qed.

Lemma sufijo_bound (k : Z) (azar : nat -> Z) : 0 <= k ->
  (forall i, 0 <= azar i <= 9) ->
  0 <= int_of_str (map azar (seq 0 (Z.to_nat k))) < 10 ^ k.
Proof.
  intros Hk Haz.
  assert (HF : Forall (fun x => 0 <= x <= 9) (map azar (seq 0 (Z.to_nat k)))).
  { apply Forall_forall. intros x Hx. apply in_map_iff in Hx as (i & <- & _). apply Haz. }
  pose proof (int_of_str_bound _ HF) as H.
  rewrite length_map, length_seq, Z2Nat.id in H by lia. exact H.
Qed.

Lemma eliminar_padding_neg (v k : Z) : k < 0 -> eliminar_padding v k = Err ValueError.
Proof.
  intros Hk. unfold eliminar_padding. destruct (Z.leb_spec 0 k); [lia|reflexivity].
Qed.

Lemma eliminar_padding_nonpos (v k : Z) : v <= 0 -> eliminar_padding v k = Err ValueError.
Proof.
  intros Hv. unfold eliminar_padding. destruct (Z.leb_spec 0 k); [|reflexivity].
  simpl. rewrite int_log10_nonpos by exact Hv. reflexivity.
Qed.

Lemma eliminar_padding_pos (v k : Z) : 0 < v -> 0 <= k ->
  eliminar_padding v k =
  if k <? num_cifras v then Ok (v / 10 ^ k) else Err ValueError.
Proof.
  intros Hv Hk. destruct (num_cifras_spec v Hv) as (Hl & _ & _).
  unfold eliminar_padding. destruct (Z.leb_spec 0 k); [|lia]. simpl.
  rewrite Hl. simpl. replace (num_cifras v - 1 + 1) with (num_cifras v) by ring.
  reflexivity.
Qed.

(** Stripping the padding of a padded value gives the message back. *)
Lemma eliminar_padding_aplicado (m k s : Z) : 1 <= m -> 0 <= k -> 0 <= s < 10 ^ k ->
  eliminar_padding (m * 10 ^ k + s) k = Ok m.
Proof.
  intros Hm Hk Hs. pose proof (Z.pow_pos_nonneg 10 k) as Hp.
  destruct (num_cifras_spec m ltac:(lia)) as (_ & H1 & H2).
  assert (Hc : num_cifras (m * 10 ^ k + s) = num_cifras m + k).
  { apply num_cifras_char; [lia|].
    replace (num_cifras m + k - 1) with ((num_cifras m - 1) + k) by ring.
    rewrite !Z.pow_add_r by lia. nia. }
  rewrite eliminar_padding_pos by nia. rewrite Hc.
  destruct (Z.ltb_spec k (num_cifras m + k)); [|lia]. f_equal.
  rewrite Z.div_add_l by lia. rewrite Z.div_small by lia. ring.
Qed.

(** ** RSA arithmetic *)

Lemma fermat_exp (p x j : Z) : Z.prime p -> 0 <= j ->
  x ^ (1 + j * (p - 1)) mod p = x mod p.
Proof.
  intros Hp Hj. pose proof (Z.prime_ge_2 p Hp) as H2.
  rewrite Z.pow_add_r, Z.pow_1_r by nia.
  destruct (Z.eq_dec (x mod p) 0) as [H0|H0].
  - rewrite <- Z.mul_mod_idemp_l, H0 by lia. reflexivity.
  - rewrite Z.mul_comm, (Z.mul_comm j), Z.pow_mul_r by lia.
    rewrite <- Z.mul_mod_idemp_l, <- Z.mod_pow_l, Z.fermat_nz by (auto; lia).
    rewrite Z.pow_1_l, Z.mod_1_l, Z.mul_1_l by lia. reflexivity.
Qed.

Lemma mod_eq_divide (a b p : Z) : 0 < p -> a mod p = b mod p -> (p | a - b).
Proof.
  intros Hp H. exists (a / p - b / p).
  rewrite (Z.div_mod a p) at 1 by lia. rewrite (Z.div_mod b p) at 1 by lia.
  rewrite H. ring.
Qed.

Lemma primos_coprimos (p q : Z) : Z.prime p -> Z.prime q -> p <> q -> Z.gcd q p = 1.
Proof.
  intros Hp Hq Hne. apply Z.coprime_prime_l; [exact Hq|].
  intros Hd. destruct Hp as [Hp1 Hp2]. pose proof (Z.prime_ge_2 q Hq).
  pose proof (Z.divide_pos_le q p ltac:(lia) Hd).
  apply (Hp2 q); [lia|exact Hd].
Qed.

(** Textbook RSA is correct on [[0, p*q)], also off the units. *)
Lemma rsa_correcto (p q x t : Z) : Z.prime p -> Z.prime q -> p <> q ->
  0 <= x < p * q -> 0 <= t ->
  x ^ (1 + t * ((p - 1) * (q - 1))) mod (p * q) = x.
Proof.
  intros Hp Hq Hne Hx Ht.
  pose proof (Z.prime_ge_2 p Hp). pose proof (Z.prime_ge_2 q Hq).
  set (E := 1 + t * ((p - 1) * (q - 1))).
  assert (Dp : (p | x ^ E - x)).
  { apply mod_eq_divide; [lia|]. unfold E.
    replace (t * ((p - 1) * (q - 1))) with ((t * (q - 1)) * (p - 1)) by ring.
    apply fermat_exp; [exact Hp|nia]. }
  assert (Dq : (q | x ^ E - x)).
  { apply mod_eq_divide; [lia|]. unfold E.
    replace (t * ((p - 1) * (q - 1))) with ((t * (p - 1)) * (q - 1)) by ring.
    apply fermat_exp; [exact Hq|nia]. }
  destruct Dp as [k Hk]. rewrite Hk in Dq. rewrite Z.mul_comm in Dq.
  apply Z.gauss in Dq; [|apply primos_coprimos; auto].
  destruct Dq as [l Hl]. subst k.
  replace (x ^ E) with (x + l * (p * q)) by lia.
  rewrite Z.mod_add by lia. apply Z.mod_small. exact Hx.
Qed.

(** ** Trial division *)

Lemma menor_factor_desde_spec (fuel : nat) (i n t : Z) :
  2 <= i <= t -> n mod t = 0 -> (forall j, i <= j < t -> n mod j <> 0) ->
  t - i < Z.of_nat fuel -> menor_factor_desde fuel i n = t.
Proof.
  revert i. induction fuel as [|f IH]; intros i Hi Ht Hj Hf; [lia|].
  cbn [menor_factor_desde]. destruct (Z.eqb_spec (n mod i) 0) as [E|E].
  - destruct (Z.eq_dec i t) as [->|Hne]; [reflexivity|].
    exfalso. apply (Hj i); [lia|exact E].
  - assert (i <> t) by congruence.
    apply IH; [lia|exact Ht| |lia]. intros j Hj'. apply Hj. lia.
Qed.

Lemma menor_factor_pq (p q : Z) : Z.prime p -> Z.prime q ->
  menor_factor (p * q) = Z.min p q.
Proof.
  intros Hp Hq. pose proof (Z.prime_ge_2 p Hp). pose proof (Z.prime_ge_2 q Hq).
  unfold menor_factor. apply menor_factor_desde_spec; [lia| | |nia].
  - apply Z.mod_divide; [lia|].
    destruct (Z.min_spec p q) as [[_ ->]|[_ ->]].
    + apply Z.divide_mul_l, Z.divide_refl.
    + apply Z.divide_mul_r, Z.divide_refl.
  - intros j Hj E. apply Z.mod_divide in E; [|lia].
    apply Z.gauss in E; [|rewrite Z.gcd_comm; apply Z.coprime_prime_small; auto; lia].
    destruct Hq as [_ Hq2]. apply (Hq2 j); [lia|exact E].
Qed.

Lemma euler_pq (p q : Z) : Z.prime p -> Z.prime q ->
  euler (p * q) = (p - 1) * (q - 1).
Proof.
  intros Hp Hq. pose proof (Z.prime_ge_2 p Hp). pose proof (Z.prime_ge_2 q Hq).
  unfold euler. rewrite menor_factor_pq by assumption.
  destruct (Z.min_spec p q) as [[_ ->]|[_ ->]].
  - rewrite (Z.mul_comm p q), Z.div_mul by lia. reflexivity.
  - rewrite Z.div_mul by lia. ring.
Qed.

(** ** Existence of primes *)

Lemma forallb_false_ex {A : Type} (f : A -> bool) (l : list A) :
  forallb f l = false -> exists x, In x l /\ f x = false.
Proof.
  induction l as [|a r IH]; simpl; [discriminate|].
  destruct (f a) eqn:Ha; simpl.
  - intros H. destruct (IH H) as (x & Hx & Hf). eauto.
  - intros _. eauto.
Qed.

Lemma divisor_primo (m : Z) : 2 <= m -> exists r, Z.prime r /\ (r | m).
Proof.
  assert (H : forall k : nat, forall m, (Z.to_nat m <= k)%nat -> 2 <= m ->
            exists r, Z.prime r /\ (r | m)).
  { induction k as [|k IH]; intros m' Hk Hm; [lia|].
    destruct (es_primo m') eqn:E.
    - exists m'. split; [apply es_primo_spec, E|apply Z.divide_refl].
    - unfold es_primo in E. destruct (Z.ltb_spec 1 m'); [|lia]. simpl in E.
      apply forallb_false_ex in E as (j & Hj & Hf). apply in_rango_2 in Hj.
      apply negb_false_iff, Z.eqb_eq in Hf. apply Z.mod_divide in Hf; [|lia].
      destruct (IH j ltac:(lia) ltac:(lia)) as (r & Hr & Hd).
      exists r. split; [exact Hr|]. eapply Z.divide_trans; eassumption. }
  intros Hm. apply (H (Z.to_nat m)); [lia|exact Hm].
Qed.

Lemma zfact_pos (k : nat) : 0 < zfact k.
Proof. induction k as [|k IH]; cbn [zfact]; nia. Qed.

Lemma zfact_divide (k : nat) (r : Z) : 1 <= r <= Z.of_nat k -> (r | zfact k).
Proof.
  induction k as [|k IH]; intros Hr; [lia|]. cbn [zfact].
  destruct (Z.eq_dec r (Z.of_nat (S k))) as [->|Hne].
  - apply Z.divide_mul_l, Z.divide_refl.
  - apply Z.divide_mul_r, IH. lia.
Qed.

Lemma primo_mayor (n : Z) :
  exists p, Z.prime p /\ n < p /\ p <= Z.abs n + zfact (Z.to_nat n) + 1.
Proof.
  pose proof (zfact_pos (Z.to_nat n)).
  destruct (Z.lt_ge_cases n 2) as [Hn|Hn].
  - exists 2. split; [exact Z.prime_2|lia].
  - destruct (divisor_primo (zfact (Z.to_nat n) + 1) ltac:(lia)) as (r & Hr & Hd).
    pose proof (Z.prime_ge_2 r Hr).
    pose proof (Z.divide_pos_le r (zfact (Z.to_nat n) + 1) ltac:(lia) Hd).
    exists r. split; [exact Hr|]. split; [|lia].
    destruct (Z.lt_ge_cases n r) as [Hlt|Hge]; [exact Hlt|].
    assert (Hf : (r | zfact (Z.to_nat n))) by (apply zfact_divide; lia).
    assert (Hr1 : (r | 1)).
    { replace 1 with ((zfact (Z.to_nat n) + 1) - zfact (Z.to_nat n)) by ring.
      apply Z.divide_sub_r; assumption. }
    apply Z.divide_pos_le in Hr1; lia.
Qed.

(** ** Prime search *)

Lemma primero_en_spec (k : nat) (a : Z) :
  match primero_en k a with
  | Some p => a <= p < a + 2 ^ Z.of_nat k /\ Z.prime p /\
              forall x, a <= x < p -> ~ Z.prime x
  | None => forall x, a <= x < a + 2 ^ Z.of_nat k -> ~ Z.prime x
  end.
Proof.
  revert a. induction k as [|k IH]; intros a; cbn [primero_en].
  - destruct (es_primo a) eqn:E.
    + simpl. split; [lia|]. split; [apply es_primo_spec, E|]. intros x Hx. lia.
    + simpl. intros x Hx. replace x with a by lia. apply es_primo_false, E.
  - pose proof (IH a) as IHa. rewrite Nat2Z.inj_succ, Z.pow_succ_r by lia.
    pose proof (Z.pow_pos_nonneg 2 (Z.of_nat k) ltac:(lia) ltac:(lia)).
    destruct (primero_en k a) as [p|] eqn:E.
    + destruct IHa as (H1 & H2 & H3). split; [lia|]. split; assumption.
    + pose proof (IH (a + 2 ^ Z.of_nat k)) as IHb.
      destruct (primero_en k (a + 2 ^ Z.of_nat k)) as [p|].
      * destruct IHb as (H1 & H2 & H3). split; [lia|]. split; [exact H2|].
        intros x Hx. destruct (Z.lt_ge_cases x (a + 2 ^ Z.of_nat k)).
        -- apply IHa. lia.
        -- apply H3. lia.
      * intros x Hx. destruct (Z.lt_ge_cases x (a + 2 ^ Z.of_nat k)).
        -- apply IHa. lia.
        -- apply IHb. lia.
Qed.

(** [siguiente_primo n] is the least prime above [n]. *)
Lemma siguiente_primo_spec (n : Z) :
  n < siguiente_primo n /\ Z.prime (siguiente_primo n) /\
  forall x, n < x < siguiente_primo n -> ~ Z.prime x.
Proof.
  destruct (primo_mayor n) as (p & Hp & Hnp & Hpb).
  pose proof (zfact_pos (Z.to_nat n)).
  set (B := 2 * Z.abs n + zfact (Z.to_nat n) + 2).
  assert (HK : B < 2 ^ Z.of_nat (cota_primo n)).
  { unfold cota_primo. fold B. rewrite Nat2Z.inj_succ, Z2Nat.id.
    - apply Z.log2_spec. unfold B. lia.
    - apply Z.log2_nonneg. }
  unfold siguiente_primo. pose proof (primero_en_spec (cota_primo n) (n + 1)) as Hs.
  destruct (primero_en (cota_primo n) (n + 1)) as [q|].
  - destruct Hs as (H1 & H2 & H3). split; [lia|]. split; [exact H2|].
    intros x Hx. apply H3. lia.
  - exfalso. apply (Hs p); [|exact Hp]. unfold B in HK. lia.
Qed.

Lemma bajar_primo_spec (fuel : nat) (x : Z) : 2 <= x < 2 + Z.of_nat fuel ->
  Z.prime (bajar_primo fuel x) /\ bajar_primo fuel x <= x.
Proof.
  revert x. induction fuel as [|f IH]; intros x Hx; [lia|]. cbn [bajar_primo].
  destruct (es_primo x) eqn:E.
  - split; [apply es_primo_spec, E|lia].
  - assert (x <> 2) by (intros ->; discriminate E).
    destruct (IH (x - 1) ltac:(lia)) as [H1 H2]. split; [exact H1|lia].
Qed.

Lemma anterior_primo_spec (n : Z) :
  match anterior_primo n with
  | Some p => 2 < n /\ Z.prime p /\ p < n
  | None => n <= 2
  end.
Proof.
  unfold anterior_primo. destruct (Z.ltb_spec 2 n); [|lia].
  destruct (bajar_primo_spec (Z.to_nat n) (n - 1) ltac:(lia)) as [H1 H2].
  split; [lia|]. split; [exact H1|lia].
Qed.

(** ** Choosing distinct primes *)

Lemma filter_length_lt {A : Type} (f g : A -> bool) (l : list A) :
  (forall x, f x = true -> g x = true) ->
  (exists x, In x l /\ g x = true /\ f x = false) ->
  (List.length (filter f l) < List.length (filter g l))%nat.
Proof.
  intros Hfg. induction l as [|a r IH]; intros (x & Hx & Hg & Hf); [destruct Hx|].
  assert (Hle : forall l', (List.length (filter f l') <= List.length (filter g l'))%nat).
  { induction l' as [|b r' IH']; simpl; [lia|].
    destruct (f b) eqn:Eb; [rewrite (Hfg b Eb); simpl; lia|].
    destruct (g b); simpl; lia. }
  destruct Hx as [<-|Hx]; simpl.
  - rewrite Hf, Hg. simpl. specialize (Hle r). lia.
  - destruct (f a) eqn:Ea; [rewrite (Hfg a Ea)|destruct (g a)]; simpl;
      specialize (IH (ex_intro _ x (conj Hx (conj Hg Hf)))); lia.
Qed.

Lemma existsb_eqb_in (out : list Z) (p : Z) : existsb (Z.eqb p) out = true <-> In p out.
Proof.
  rewrite existsb_exists. split.
  - intros (x & Hx & E). apply Z.eqb_eq in E. subst. exact Hx.
  - intros Hp. exists p. split; [exact Hp|apply Z.eqb_refl].
Qed.

Lemma subir_spec (fuel : nat) (out : list Z) (p : Z) : Z.prime p ->
  (List.length (filter (fun x => Z.leb p x) out) < fuel)%nat ->
  Z.prime (subir fuel out p) /\ ~ In (subir fuel out p) out.
Proof.
  revert p. induction fuel as [|f IH]; intros p Hp Hf; [lia|]. cbn [subir].
  destruct (existsb (Z.eqb p) out) eqn:E.
  - apply existsb_eqb_in in E.
    destruct (siguiente_primo_spec p) as (H1 & H2 & _).
    apply IH; [exact H2|].
    assert (Hlt : (List.length (filter (fun x => Z.leb (siguiente_primo p) x) out) <
                   List.length (filter (fun x => Z.leb p x) out))%nat).
    { apply filter_length_lt.
      - intros x Hx. apply Z.leb_le in Hx. apply Z.leb_le. lia.
      - exists p. split; [exact E|]. split; apply Z.leb_refl || apply Z.leb_gt; lia. }
    lia.
  - split; [exact Hp|]. intros Hin. apply existsb_eqb_in in Hin. congruence.
Qed.

Lemma bajar_none (fuel : nat) (out : list Z) : bajar fuel out None = None.
Proof. destruct fuel; reflexivity. Qed.

Lemma bajar_spec (fuel : nat) (out : list Z) (x : Z) : Z.prime x ->
  (List.length (filter (fun y => Z.leb y x) out) < fuel)%nat ->
  match bajar fuel out (Some x) with
  | Some r => Z.prime r /\ r <= x /\ ~ In r out
  | None => True
  end.
Proof.
  revert x. induction fuel as [|f IH]; intros x Hx Hf; [lia|]. cbn [bajar].
  destruct (existsb (Z.eqb x) out) eqn:E.
  - apply existsb_eqb_in in E. pose proof (anterior_primo_spec x) as Ha.
    destruct (anterior_primo x) as [a|]; [|rewrite bajar_none; exact I].
    destruct Ha as (_ & Ha1 & Ha2).
    assert (Hlt : (List.length (filter (fun y => Z.leb y a) out) <
                   List.length (filter (fun y => Z.leb y x) out))%nat).
    { apply filter_length_lt.
      - intros y Hy. apply Z.leb_le in Hy. apply Z.leb_le. lia.
      - exists x. split; [exact E|]. split; apply Z.leb_refl || apply Z.leb_gt; lia. }
    specialize (IH a Ha1 ltac:(lia)). destruct (bajar f out (Some a)); [|exact I].
    destruct IH as (H1 & H2 & H3). split; [exact H1|]. split; [lia|exact H3].
  - split; [exact Hx|]. split; [lia|]. intros Hin. apply existsb_eqb_in in Hin. congruence.
Qed.

Lemma paso_spec (min_primo max_primo : Z) (out : list Z) (n : Z) :
  match paso min_primo max_primo out n with
  | Ok x => Z.prime x /\ min_primo <= x < max_primo /\ ~ In x out
  | Err e => e = ValueError
  end.
Proof.
  unfold paso.
  destruct (siguiente_primo_spec n) as (_ & Hs & _).
  pose proof (filter_length_le (fun x => Z.leb (siguiente_primo n) x) out).
  destruct (subir_spec (S (List.length out)) out (siguiente_primo n) Hs ltac:(lia))
    as [Hp Hnin].
  set (p := subir (S (List.length out)) out (siguiente_primo n)) in *.
  destruct (Z.leb_spec max_primo p).
  - pose proof (anterior_primo_spec max_primo) as Ha.
    destruct (anterior_primo max_primo) as [a|]; [|reflexivity].
    destruct Ha as (_ & Ha1 & Ha2).
    pose proof (filter_length_le (fun y => Z.leb y a) out).
    pose proof (bajar_spec (S (List.length out)) out a Ha1 ltac:(lia)) as Hb.
    destruct (bajar (S (List.length out)) out (Some a)) as [r|]; [|reflexivity].
    destruct Hb as (Hb1 & Hb2 & Hb3).
    destruct (Z.ltb_spec r min_primo); [reflexivity|]. split; [exact Hb1|].
    split; [lia|exact Hb3].
  - destruct (Z.ltb_spec p min_primo); [reflexivity|]. split; [exact Hp|].
    split; [lia|exact Hnin].
Qed.

Lemma elegir_spec (min_primo max_primo : Z) (semillas out : list Z) :
  primos_validos min_primo max_primo out ->
  match elegir min_primo max_primo out semillas with
  | Ok res => primos_validos min_primo max_primo res /\
              List.length res = (List.length out + List.length semillas)%nat
  | Err e => e = ValueError
  end.
Proof.
  revert out. induction semillas as [|n r IH]; intros out [Hnd Hall]; cbn [elegir].
  - split; [split; assumption|simpl; lia].
  - pose proof (paso_spec min_primo max_primo out n) as Hp.
    destruct (paso min_primo max_primo out n) as [x|e]; [|exact Hp]. simpl.
    destruct Hp as (H1 & H2 & H3).
    specialize (IH (out ++ [x])).
    destruct (elegir min_primo max_primo (out ++ [x]) r) as [res|e].
    + destruct IH as [IH1 IH2].
      * split.
        -- apply NoDup_app; [exact Hnd|constructor; [intros []|constructor]|].
           intros a Ha [<-|[]]. contradiction.
        -- intros a Ha. apply in_app_or in Ha as [Ha|[<-|[]]]; [apply Hall, Ha|].
           split; assumption.
      * split; [exact IH1|]. rewrite IH2, length_app. simpl. lia.
    + apply IH. split.
      * apply NoDup_app; [exact Hnd|constructor; [intros []|constructor]|].
        intros a Ha [<-|[]]. contradiction.
      * intros a Ha. apply in_app_or in Ha as [Ha|[<-|[]]]; [apply Hall, Ha|].
        split; assumption.
Qed.

Lemma primos_de_salida (out : list Z) :
  primos_de (match out with [p] => Primo p | _ => Tupla out end) = out.
Proof. destruct out as [|a [|b r]]; reflexivity. Qed.

Lemma generar_numeros_primos_spec (min_primo max_primo numero : Z) (azar : nat -> Z) :
  match generar_numeros_primos min_primo max_primo numero azar with
  | Ok s => primos_validos min_primo max_primo (primos_de s) /\
            List.length (primos_de s) = Z.to_nat numero
  | Err e => e = ValueError
  end.
Proof.
  unfold generar_numeros_primos.
  destruct (Z.ltb_spec numero 1); [reflexivity|].
  destruct (Z.ltb_spec max_primo min_primo); [reflexivity|].
  assert (Hv : primos_validos min_primo max_primo []) by (split; [constructor|intros x []]).
  pose proof (elegir_spec min_primo max_primo (map azar (seq 0 (Z.to_nat numero))) [] Hv) as He.
  destruct (elegir min_primo max_primo [] (map azar (seq 0 (Z.to_nat numero)))) as [out|e];
    [|exact He].
  simpl. rewrite primos_de_salida. destruct He as [He1 He2]. split; [exact He1|].
  rewrite He2, length_map, length_seq. reflexivity.
Qed.

(** ** Key generation *)

Lemma buscar_e_spec (phi : Z) (azar : nat -> Z) (fuel i : nat) (e : Z) :
  buscar_e phi azar i fuel = Ok e -> exists j, e = azar j /\ coprimos phi e = true.
Proof.
  revert i. induction fuel as [|f IH]; intros i H; cbn [buscar_e] in H; [discriminate|].
  destruct (phi <=? 1); [discriminate|].
  destruct (coprimos phi (azar i)) eqn:E.
  - injection H as <-. eauto.
  - eapply IH; exact H.
Qed.

Lemma generar_claves_spec (min_primo max_primo : Z) (azar_p : nat -> Z)
    (azar_e : Z -> nat -> Z) (intentos : nat) (n e d : Z) :
  generar_claves min_primo max_primo azar_p azar_e intentos = Ok (n, e, d) ->
  exists p q, Z.prime p /\ Z.prime q /\ p <> q /\
    min_primo <= p < max_primo /\ min_primo <= q < max_primo /\ n = p * q /\
    (exists j, e = azar_e ((p - 1) * (q - 1)) j) /\
    Z.gcd e ((p - 1) * (q - 1)) = 1 /\
    (e * d) mod ((p - 1) * (q - 1)) = 1 /\ 0 <= d < (p - 1) * (q - 1) /\
    d = Z.invmod e ((p - 1) * (q - 1)).
Proof.
  unfold generar_claves. intros H.
  pose proof (generar_numeros_primos_spec min_primo max_primo 2 azar_p) as Hg.
  destruct (generar_numeros_primos min_primo max_primo 2 azar_p) as [s|x]; [|discriminate].
  simpl in H. destruct s as [p0|[|p [|q [|r l]]]]; try discriminate.
  destruct Hg as [[Hnd Hall] _].
  destruct (Hall p (or_introl eq_refl)) as [Hp Hpr].
  destruct (Hall q (or_intror (or_introl eq_refl))) as [Hq Hqr].
  assert (Hne : p <> q) by (intros <-; inversion Hnd; subst; simpl in *; tauto).
  pose proof (Z.prime_ge_2 p Hp). pose proof (Z.prime_ge_2 q Hq).
  assert (Hphi : 2 <= (p - 1) * (q - 1)) by nia.
  destruct (buscar_e ((p - 1) * (q - 1)) (azar_e ((p - 1) * (q - 1))) 0 intentos)
    as [e0|x] eqn:Eb; [|discriminate].
  apply buscar_e_spec in Eb as (j & -> & Hc). simpl in H.
  unfold inversa_mod_p, coprimos in H. unfold coprimos in Hc.
  rewrite Z.gcd_comm, Hc in H. simpl in H. injection H as <- <- <-.
  apply Z.eqb_eq in Hc. rewrite Z.gcd_comm in Hc.
  assert (Hinv : (azar_e ((p - 1) * (q - 1)) j * Z.invmod (azar_e ((p - 1) * (q - 1)) j)
     ((p - 1) * (q - 1))) mod ((p - 1) * (q - 1)) = 1)
    by (rewrite Z.mul_comm; apply Z.invmod_coprime; assumption).
  assert (Hd : 0 <= Z.invmod (azar_e ((p - 1) * (q - 1)) j) ((p - 1) * (q - 1))
     < (p - 1) * (q - 1)) by (rewrite <- Z.mod_invmod; apply Z.mod_pos_bound; lia).
  exists p, q.
  refine (conj Hp (conj Hq (conj Hne (conj Hpr (conj Hqr (conj eq_refl
    (conj _ (conj Hc (conj Hinv (conj Hd eq_refl)))))))))); eauto.
Qed.

(** ** Encryption of one value *)

Lemma cifrar_rsa_ok (m n e k : Z) (azar : nat -> Z) :
  1 <= m -> 1 <= n -> 0 <= e -> 0 <= k -> num_cifras m + k < num_cifras n ->
  cifrar_rsa m n e k azar =
  Ok ((m * 10 ^ k + int_of_str (map azar (seq 0 (Z.to_nat k)))) ^ e mod n).
Proof.
  intros Hm Hn He Hk Hc. unfold cifrar_rsa.
  destruct (Z.ltb_spec m 0); [lia|]. destruct (Z.ltb_spec n 0); [lia|].
  destruct (Z.ltb_spec e 0); [lia|]. destruct (Z.ltb_spec k 0); [lia|]. simpl.
  destruct (num_cifras_spec m ltac:(lia)) as (Hlm & _ & _).
  destruct (num_cifras_spec n ltac:(lia)) as (Hln & _ & _).
  rewrite Hlm. simpl. rewrite Hln. simpl.
  destruct (Z.ltb_spec (num_cifras m - 1 + 1 + k) (num_cifras n - 1 + 1)); [|lia].
  rewrite aplicar_padding_spec by lia. simpl. apply potencia_mod_p_spec; lia.
Qed.

(** The padded value stays below the modulus. *)
Lemma padding_menor_modulo (m n k s : Z) : 1 <= m -> 1 <= n -> 0 <= k ->
  0 <= s < 10 ^ k -> num_cifras m + k < num_cifras n -> m * 10 ^ k + s < n.
Proof.
  intros Hm Hn Hk Hs Hc.
  destruct (num_cifras_spec m ltac:(lia)) as (_ & Hm1 & Hm2).
  destruct (num_cifras_spec n ltac:(lia)) as (_ & Hn1 & Hn2).
  assert (H1 : m * 10 ^ k + s < 10 ^ (num_cifras m + k)).
  { rewrite Z.pow_add_r by lia. nia. }
  assert (H2 : 10 ^ (num_cifras m + k) <= 10 ^ (num_cifras n - 1))
    by (apply Z.pow_le_mono_r; lia).
  lia.
Qed.

(** ** Strings *)

Lemma cifrar_cadena_desde_err (s : list Z) (n e k : Z) (azar : nat -> nat -> Z) (j : nat) :
  (exists ch, In ch s /\ forall a, exists x, cifrar_rsa ch n e k a = Err x) ->
  exists x, cifrar_cadena_desde s n e k azar j = Err x.
Proof.
  revert j. induction s as [|c r IH]; intros j (ch & Hin & Hch); [destruct Hin|].
  cbn [cifrar_cadena_desde].
  destruct Hin as [<-|Hin].
  - destruct (Hch (azar j)) as [x Hx]. rewrite Hx. simpl. eauto.
  - destruct (cifrar_rsa c n e k (azar j)) as [c'|x]; simpl; [|eauto].
    destruct (IH (S j) (ex_intro _ ch (conj Hin Hch))) as [x Hx]. rewrite Hx. simpl. eauto.
Qed.

Lemma descifrar_cadena_cons (c : Z) (r : list Z) (n d k : Z) :
  descifrar_cadena_rsa (c :: r) n d k =
  let* ch := descifrar_caracter c n d k in
  let* rest := descifrar_cadena_rsa r n d k in Ok (ch :: rest).
Proof.
  cbn [descifrar_cadena_rsa]. unfold descifrar_caracter.
  destruct (descifrar_rsa c n d k); reflexivity.
Qed.

Lemma descifrar_cadena_prefijo (pre : list Z) (c : Z) (post : list Z) (n d k : Z) (x : exc) :
  Forall (fun c' => exists ch, descifrar_caracter c' n d k = Ok ch) pre ->
  descifrar_caracter c n d k = Err x ->
  descifrar_cadena_rsa (pre ++ c :: post) n d k = Err x.
Proof.
  intros Hpre Hc. induction Hpre as [|c' pre [ch Hch] _ IH]; simpl app;
    rewrite descifrar_cadena_cons.
  - rewrite Hc. reflexivity.
  - rewrite Hch. simpl. rewrite IH. reflexivity.
Qed.

Lemma descifrar_cadena_ok (clist s : list Z) (n d k : Z) :
  descifrar_cadena_rsa clist n d k = Ok s ->
  Forall2 (fun c ch => descifrar_caracter c n d k = Ok ch) clist s.
Proof.
  revert s. induction clist as [|c r IH]; intros s H.
  - injection H as <-. constructor.
  - rewrite descifrar_cadena_cons in H.
    destruct (descifrar_caracter c n d k) as [ch|x] eqn:E; [|discriminate]. simpl in H.
    destruct (descifrar_cadena_rsa r n d k) as [rest|x]; [|discriminate].
    injection H as <-. constructor; [exact E|]. apply IH. reflexivity.
Qed.

(** ** Primes of an interval *)

Lemma primos_en_spec (min_primo max_primo x : Z) :
  In x (primos_en min_primo max_primo) <-> Z.prime x /\ min_primo <= x < max_primo.
Proof.
  unfold primos_en. rewrite filter_In, in_map_iff, es_primo_spec. split.
  - intros [(i & <- & Hi) Hp]. apply in_seq in Hi. split; [exact Hp|lia].
  - intros [Hp Hx]. split; [|exact Hp].
    exists (Z.to_nat (x - min_primo)). split; [lia|]. apply in_seq. lia.
Qed.

Lemma primos_en_nodup (min_primo max_primo : Z) : NoDup (primos_en min_primo max_primo).
Proof.
  unfold primos_en. apply NoDup_filter. apply Finite.Injective_map_NoDup; [|apply seq_NoDup].
  intros a b H. lia.
Qed.

(** ** Concrete draws *)

Lemma az_e_randrange : randrange_impar az_e.
Proof.
  intros phi i Hphi. unfold az_e.
  assert (0 < phi / 2) by (apply Z.div_str_pos; lia).
  pose proof (Z.mod_pos_bound (Z.of_nat i + 3) (phi / 2) ltac:(lia)).
  pose proof (Z.mul_div_le phi 2 ltac:(lia)).
  split; [lia|]. rewrite Z.odd_add_mul_2. reflexivity.
Qed.

Lemma az_d_digitos : digitos_azar az_d.
Proof. intros i. unfold az_d. lia. Qed.

Lemma cifrar_rsa_cero (n e k : Z) (azar : nat -> Z) : cifrar_rsa 0 n e k azar = Err ValueError.
Proof.
  unfold cifrar_rsa. destruct ((0 <? 0) || (n <? 0) || (e <? 0) || (k <? 0)); [reflexivity|].
  rewrite int_log10_nonpos by lia. reflexivity.
Qed.

(** * Properties of the specification *)

(** C9: for [m >= 0] and [digitos_padding >= 0], [aplicar_padding] returns
    [m * 10^digitos_padding + s] with [0 <= s < 10^digitos_padding] (the
    random digits read as a number); a negative [m] or [digitos_padding] is a
    [ValueError]. *)
Theorem aplicar_padding_sufijo (m k : Z) (azar : nat -> Z) (Hd : digitos_azar azar) :
  (0 <= m -> 0 <= k ->
   exists s, aplicar_padding m k azar = Ok (m * 10 ^ k + s) /\ 0 <= s < 10 ^ k) /\
  (k < 0 \/ m < 0 -> aplicar_padding m k azar = Err ValueError).
Proof.
  split.
  - intros Hm Hk. exists (int_of_str (map azar (seq 0 (Z.to_nat k)))).
    split; [apply aplicar_padding_spec; assumption|apply sufijo_bound; assumption].
  - intros Hneg. unfold aplicar_padding.
    destruct Hneg as [Hk|Hm].
    + destruct (Z.ltb_spec k 0); [reflexivity|lia].
    + destruct (Z.ltb_spec m 0); [|lia]. rewrite orb_true_r. reflexivity.
Qed.

Lemma aplicar_padding_sufijo_witness :
  digitos_azar az_d /\
  exists s, aplicar_padding 12 3 az_d = Ok (12 * 10 ^ 3 + s) /\ 0 <= s < 10 ^ 3.
Proof.
  split; [apply az_d_digitos|].
  apply (proj1 (aplicar_padding_sufijo 12 3 az_d az_d_digitos)); lia.
Defined.




(** C10: the NUL code point [m = 0] is never encrypted: [log10(0)] raises
    [ValueError] inside the digit-count assertion of [cifrar_rsa], whatever
    [n], [e] and [digitos_padding]; a string holding NUL makes
    [cifrar_cadena_rsa] raise. *)
Theorem cifrar_rsa_nul (n e k : Z) (azar : nat -> Z) (azar_s : nat -> nat -> Z) (s : list Z) :
  int_log10 0 = Err ValueError /\ cifrar_rsa 0 n e k azar = Err ValueError /\
  (In 0 s -> exists x, cifrar_cadena_rsa s n e k azar_s = Err x).
Proof.
  split; [apply int_log10_nonpos; lia|split; [apply cifrar_rsa_cero|]].
  intros Hin. apply cifrar_cadena_desde_err. exists 0. split; [exact Hin|].
  intros a. exists ValueError. apply cifrar_rsa_cero.
Qed.

Lemma cifrar_rsa_nul_witness :
  In 0 [104; 0] /\ exists x, cifrar_cadena_rsa [104; 0] 2173 7 1 (fun _ _ => 5) = Err x.
Proof.
  split; [simpl; auto|].
  apply (proj2 (proj2 (cifrar_rsa_nul 2173 7 1 az_d (fun _ _ => 5) [104; 0]))).
  simpl; auto.
Defined.



(** C8: a triple [(n, e, d)] returned by [generar_claves] satisfies the
    keypair invariant: [n = p * q] for distinct primes [p], [q] of
    [[min_primo, max_primo)], [e] is odd, in [[1, phi)] and coprime with
    [phi = (p-1)(q-1)], and [d] is the inverse of [e] modulo [phi]. *)
Theorem generar_claves_invariante (min_primo max_primo : Z) (azar_p : nat -> Z)
    (azar_e : Z -> nat -> Z) (intentos : nat) (n e d : Z) :
  randrange_impar azar_e ->
  generar_claves min_primo max_primo azar_p azar_e intentos = Ok (n, e, d) ->
  exists p q, Z.prime p /\ Z.prime q /\ p <> q /\
    min_primo <= p < max_primo /\ min_primo <= q < max_primo /\ n = p * q /\
    Z.odd e = true /\ 1 <= e < (p - 1) * (q - 1) /\
    Z.gcd e ((p - 1) * (q - 1)) = 1 /\
    (e * d) mod ((p - 1) * (q - 1)) = 1 /\ 0 <= d < (p - 1) * (q - 1).
Proof.
  intros Hr H.
  destruct (generar_claves_spec _ _ _ _ _ _ _ _ H)
    as (p & q & Hp & Hq & Hne & Hpr & Hqr & Hn & [j Hj] & Hc & Hinv & Hd & _).
  pose proof (Z.prime_ge_2 p Hp). pose proof (Z.prime_ge_2 q Hq).
  destruct (Hr ((p - 1) * (q - 1)) j ltac:(nia)) as [He Hodd]. rewrite <- Hj in He, Hodd.
  exists p, q. repeat (split; [assumption|]). assumption.
Qed.

Lemma generar_claves_invariante_witness :
  randrange_impar az_e /\ generar_claves 10 100 az_p az_e 5 = Ok (2173, 7, 1783) /\
  exists p q, Z.prime p /\ Z.prime q /\ p <> q /\
    10 <= p < 100 /\ 10 <= q < 100 /\ 2173 = p * q /\
    Z.odd 7 = true /\ 1 <= 7 < (p - 1) * (q - 1) /\
    Z.gcd 7 ((p - 1) * (q - 1)) = 1 /\
    (7 * 1783) mod ((p - 1) * (q - 1)) = 1 /\ 0 <= 1783 < (p - 1) * (q - 1).
Proof.
  split; [apply az_e_randrange|split; [vm_compute; reflexivity|]].
  apply (generar_claves_invariante 10 100 az_p az_e 5 2173 7 1783 az_e_randrange).
  vm_compute; reflexivity.
Defined.

(** C5: [generar_numeros_primos min_primo max_primo numero] raises
    [ValueError] when [numero < 1] or [min_primo > max_primo]; when it
    returns, it returns [numero] pairwise distinct primes of
    [[min_primo, max_primo)]; a draw for which no prime of the interval is
    left raises [ValueError]; asking for more primes than the interval holds
    raises [ValueError]. *)
Theorem generar_numeros_primos_correcto (min_primo max_primo numero : Z) (azar : nat -> Z) :
  (numero < 1 -> generar_numeros_primos min_primo max_primo numero azar = Err ValueError) /\
  (1 <= numero -> max_primo < min_primo ->
   generar_numeros_primos min_primo max_primo numero azar = Err ValueError) /\
  (forall s, generar_numeros_primos min_primo max_primo numero azar = Ok s ->
   List.length (primos_de s) = Z.to_nat numero /\ NoDup (primos_de s) /\
   forall p, In p (primos_de s) -> Z.prime p /\ min_primo <= p < max_primo) /\
  (forall out n, (forall p, Z.prime p -> min_primo <= p < max_primo -> In p out) ->
   paso min_primo max_primo out n = Err ValueError) /\
  (Z.of_nat (List.length (primos_en min_primo max_primo)) < numero ->
   generar_numeros_primos min_primo max_primo numero azar = Err ValueError).
Proof.
  pose proof (generar_numeros_primos_spec min_primo max_primo numero azar) as Hg.
  split; [|split; [|split; [|split]]].
  - intros H. unfold generar_numeros_primos. destruct (Z.ltb_spec numero 1); [reflexivity|lia].
  - intros H1 H2. unfold generar_numeros_primos.
    destruct (Z.ltb_spec numero 1); [lia|]. destruct (Z.ltb_spec max_primo min_primo); [reflexivity|lia].
  - intros s Hs. rewrite Hs in Hg. destruct Hg as [[Hnd Hall] Hl]. auto.
  - intros out n Hout. pose proof (paso_spec min_primo max_primo out n) as Hp.
    destruct (paso min_primo max_primo out n) as [x|e].
    + destruct Hp as (Hx & Hr & Hnin). exfalso. exact (Hnin (Hout x Hx Hr)).
    + subst. reflexivity.
  - intros Hlt. destruct (generar_numeros_primos min_primo max_primo numero azar) as [s|e].
    + exfalso. destruct Hg as [[Hnd Hall] Hl].
      assert (Hincl : incl (primos_de s) (primos_en min_primo max_primo)).
      { intros x Hx. apply primos_en_spec. apply Hall. exact Hx. }
      pose proof (NoDup_incl_length Hnd Hincl) as Hle. rewrite Hl in Hle. lia.
    + subst. reflexivity.
Qed.

Lemma generar_numeros_primos_correcto_witness :
  Z.of_nat (List.length (primos_en 14 20)) < 3 /\
  generar_numeros_primos 14 20 3 az_p = Err ValueError.
Proof.
  split; [vm_compute; reflexivity|].
  apply (proj2 (proj2 (proj2 (proj2 (generar_numeros_primos_correcto 14 20 3 az_p))))).
  vm_compute; reflexivity.
Defined.

(** C4: for a triple [(n, e, d)] of [generar_claves] with [e > 1],
    [romper_clave n e] returns [d]; for any [(n, e)], [romper_clave n e]
    raises [AssertionError] when [e] is not strictly between 1 and
    [phi = euler n] or is not coprime with [phi]. *)
Theorem romper_clave_correcto :
  (forall (min_primo max_primo : Z) (azar_p : nat -> Z) (azar_e : Z -> nat -> Z)
     (intentos : nat) (n e d : Z),
   randrange_impar azar_e ->
   generar_claves min_primo max_primo azar_p azar_e intentos = Ok (n, e, d) ->
   1 < e -> romper_clave n e = Ok d) /\
  (forall n e, ~ (1 < e < euler n) \/ Z.gcd (euler n) e <> 1 ->
   romper_clave n e = Err AssertionError).
Proof.
  split.
  - intros min_primo max_primo azar_p azar_e intentos n e d Hr H He1.
    destruct (generar_claves_spec _ _ _ _ _ _ _ _ H)
      as (p & q & Hp & Hq & Hne & Hpr & Hqr & -> & [j Hj] & Hc & Hinv & Hd & ->).
    pose proof (Z.prime_ge_2 p Hp). pose proof (Z.prime_ge_2 q Hq).
    destruct (Hr ((p - 1) * (q - 1)) j ltac:(nia)) as [He _]. rewrite <- Hj in He.
    unfold romper_clave. rewrite euler_pq by assumption.
    destruct (Z.ltb_spec 1 e); [|lia]. destruct (Z.ltb_spec e ((p - 1) * (q - 1))); [|lia].
    unfold inversa_mod_p, coprimos. rewrite Z.gcd_comm, Hc. reflexivity.
  - intros n e Hbad. unfold romper_clave, coprimos.
    destruct (Z.ltb_spec 1 e); [|reflexivity].
    destruct (Z.ltb_spec e (euler n)); [|reflexivity].
    destruct (Z.eqb_spec (Z.gcd (euler n) e) 1); [|reflexivity].
    exfalso. destruct Hbad as [Hb|Hb]; [lia|contradiction].
Qed.

Lemma romper_clave_correcto_witness :
  randrange_impar az_e /\ generar_claves 10 100 az_p az_e 5 = Ok (2173, 7, 1783) /\
  romper_clave 2173 7 = Ok 1783.
Proof.
  split; [apply az_e_randrange|split; [vm_compute; reflexivity|]].
  apply (proj1 romper_clave_correcto 10 100 az_p az_e 5%nat 2173 7 1783 az_e_randrange);
    [vm_compute; reflexivity|lia].
Defined.



(** C2 (as stated, refuted): with the key [n = 10000019 * 10000079],
    [e = 65537], [d = 51617139553649] and [PADDING_DIGITS], the ciphertext
    of ['H'] (72) decrypts on its own, the value [0] does not; the list of
    both fails as a whole, and [check_inbox] shows the marker in place of
    the whole message, losing the character that decrypted. *)
Lemma descifrar_cadena_aborta_cex :
  cifrar_rsa 72 100000980001501 65537 PADDING_DIGITS az_d = Ok 30064068749142 /\
  descifrar_caracter 30064068749142 100000980001501 51617139553649 PADDING_DIGITS = Ok 72 /\
  descifrar_caracter 0 100000980001501 51617139553649 PADDING_DIGITS = Err ValueError /\
  descifrar_cadena_rsa [30064068749142; 0] 100000980001501 51617139553649 PADDING_DIGITS
    = Err ValueError /\
  texto_entrada (Some [30064068749142; 0]) 100000980001501 51617139553649
    = Ok MENSAJE_CORRUPTO.
Proof. repeat split; vm_compute; reflexivity. Qed.

(** C2 (amended): [descifrar_cadena_rsa] has no per-character isolation.
    The first element whose decryption ([descifrar_rsa], then [chr]) fails
    makes the whole call fail with that element's error; a result is
    returned only when every element decrypts, one character per element.
    [check_inbox] turns a [ValueError] of the whole call into the single
    marker ["MENSAJE CORRUPTO"] for the whole message; other errors leave
    it. *)
Theorem descifrar_cadena_sin_aislamiento (n d k : Z) :
  (forall pre c post x,
   Forall (fun c' => exists ch, descifrar_caracter c' n d k = Ok ch) pre ->
   descifrar_caracter c n d k = Err x ->
   descifrar_cadena_rsa (pre ++ c :: post) n d k = Err x) /\
  (forall clist s, descifrar_cadena_rsa clist n d k = Ok s ->
   Forall2 (fun c ch => descifrar_caracter c n d k = Ok ch) clist s) /\
  (forall clist, descifrar_cadena_rsa clist n d PADDING_DIGITS = Err ValueError ->
   texto_entrada (Some clist) n d = Ok MENSAJE_CORRUPTO) /\
  (forall clist x, descifrar_cadena_rsa clist n d PADDING_DIGITS = Err x -> x <> ValueError ->
   texto_entrada (Some clist) n d = Err x).
Proof.
  split; [|split; [|split]].
  - intros pre c post x. apply descifrar_cadena_prefijo.
  - intros clist s. apply descifrar_cadena_ok.
  - intros clist H. unfold texto_entrada. rewrite H. reflexivity.
  - intros clist x H Hx. unfold texto_entrada. rewrite H.
    destruct x; try reflexivity. contradiction.
Qed.

Lemma descifrar_cadena_sin_aislamiento_witness :
  descifrar_caracter 30064068749142 100000980001501 51617139553649 PADDING_DIGITS = Ok 72 /\
  descifrar_caracter 0 100000980001501 51617139553649 PADDING_DIGITS = Err ValueError /\
  descifrar_cadena_rsa ([30064068749142] ++ 0 :: []) 100000980001501 51617139553649
    PADDING_DIGITS = Err ValueError.
Proof.
  split; [vm_compute; reflexivity|split; [vm_compute; reflexivity|]].
  apply (proj1 (descifrar_cadena_sin_aislamiento 100000980001501 51617139553649 PADDING_DIGITS)).
  - constructor; [exists 72; vm_compute; reflexivity|constructor].
  - vm_compute; reflexivity.
Defined.

(** C3 (the code disagrees): the docstring of [valid] says any failure of
    the round trip means invalid keys, but only [OverflowError] is caught.
    On the key [(2173, 7, 1783)], which [generar_claves 10 100] returns for
    the primes 41 and 53, the digit-count assertion of [cifrar_rsa] fails
    for the first character and the [AssertionError] leaves [valid]; with
    the private exponent 0 every decrypted value is 1, too short for the
    padding, and the [ValueError] of [eliminar_padding] leaves [valid]. *)
Theorem valid_propaga_errores :
  generar_claves 10 100 az_p az_e 5 = Ok (2173, 7, 1783) /\
  (forall azar, valid 2173 7 1783 azar = Err AssertionError) /\
  valid 100000980001501 65537 0 (fun _ => az_d) = Err ValueError.
Proof.
  split; [vm_compute; reflexivity|split; [intros azar; reflexivity|vm_compute; reflexivity]].
Qed.

(** * Further properties of [rsa.py] and [criptochat.py] *)

(** ** Helpers *)

Lemma bajar_primo_max (fuel : nat) (x : Z) : 2 <= x < 2 + Z.of_nat fuel ->
  forall y, bajar_primo fuel x < y <= x -> ~ Z.prime y.
Proof.
  revert x. induction fuel as [|f IH]; intros x Hx y Hy; [lia|]. cbn [bajar_primo] in Hy.
  destruct (es_primo x) eqn:E; [lia|].
  assert (x <> 2) by (intros ->; discriminate E).
  destruct (Z.eq_dec y x) as [->|Hne].
  - apply es_primo_false. exact E.
  - apply (IH (x - 1)); lia.
Qed.

Lemma int_log10_ok_pos (m l : Z) : int_log10 m = Ok l -> 0 < m.
Proof.
  intros H. destruct (Z.le_gt_cases m 0); [|lia].
  rewrite int_log10_nonpos in H by assumption. discriminate.
Qed.

Lemma chr_ok (m : Z) : 0 <= m <= 1114111 -> chr m = Ok m.
Proof.
  intros Hm. unfold chr.
  destruct (Z.ltb_spec m (-2147483648)); [lia|]. destruct (Z.ltb_spec 2147483647 m); [lia|].
  destruct (Z.leb_spec 0 m); [|lia]. destruct (Z.leb_spec m 1114111); [|lia]. reflexivity.
Qed.

Lemma chr_rango (m ch : Z) : chr m = Ok ch -> ch = m /\ 0 <= m <= 1114111.
Proof.
  unfold chr. destruct ((m <? -2147483648) || (2147483647 <? m)); [discriminate|].
  destruct (Z.leb_spec 0 m) as [H0|H0]; simpl; [|discriminate].
  destruct (Z.leb_spec m 1114111) as [H1|H1]; [|discriminate]. intros Hc; injection Hc as <-. lia.
Qed.

Lemma num_cifras_unicode (c : Z) : 1 <= c <= 1114111 -> num_cifras c <= 7.
Proof.
  intros Hc. destruct (num_cifras_spec c ltac:(lia)) as (_ & H1 & H2 & _).
  destruct (Z.le_gt_cases (num_cifras c) 7) as [|Hgt]; [assumption|].
  assert (10 ^ 7 <= 10 ^ (num_cifras c - 1)) by (apply Z.pow_le_mono_r; lia).
  lia.
Qed.

(** A decrypted value is at least 1: [eliminar_padding] keeps a leading
    digit. *)
Lemma descifrar_rsa_pos (c n d k m : Z) : descifrar_rsa c n d k = Ok m -> 1 <= m.
Proof.
  unfold descifrar_rsa. destruct (potencia_mod_p c d n) as [v|x]; [|discriminate]. simpl.
  intros H. destruct (Z.le_gt_cases v 0).
  { rewrite eliminar_padding_nonpos in H by assumption. discriminate. }
  destruct (Z.lt_ge_cases k 0).
  { rewrite eliminar_padding_neg in H by assumption. discriminate. }
  rewrite eliminar_padding_pos in H by lia.
  destruct (Z.ltb_spec k (num_cifras v)); [|discriminate]. injection H as <-.
  destruct (num_cifras_spec v ltac:(lia)) as (_ & _ & Hlo & _).
  assert (10 ^ k <= 10 ^ (num_cifras v - 1)) by (apply Z.pow_le_mono_r; lia).
  pose proof (Z.div_str_pos v (10 ^ k) ltac:(pose proof (Z.pow_pos_nonneg 10 k); lia)).
  lia.
Qed.

Lemma descifrar_cadena_rango (clist s : list Z) (n d k : Z) :
  descifrar_cadena_rsa clist n d k = Ok s -> Forall (fun ch => 1 <= ch <= 1114111) s.
Proof.
  intros H. apply descifrar_cadena_ok in H.
  induction H as [|c ch cl s Hc _ IH]; constructor; [|exact IH].
  unfold descifrar_caracter in Hc.
  destruct (descifrar_rsa c n d k) as [m|x] eqn:E; [|discriminate]. simpl in Hc.
  apply chr_rango in Hc as [-> Hr]. apply descifrar_rsa_pos in E. lia.
Qed.

Lemma cifrar_rsa_errores (m n e k : Z) (azar : nat -> Z) (x : exc) :
  cifrar_rsa m n e k azar = Err x -> x = ValueError \/ x = AssertionError.
Proof.
  unfold cifrar_rsa.
  destruct ((m <? 0) || (n <? 0) || (e <? 0) || (k <? 0)) eqn:E.
  { intros H; injection H as <-; auto. }
  rewrite !orb_false_iff, !Z.ltb_ge in E.
  destruct (int_log10 m) as [lm|y] eqn:Em; simpl;
    [|unfold int_log10 in Em; destruct (m <=? 0); [|discriminate];
      injection Em as <-; intros H; injection H as <-; auto].
  destruct (int_log10 n) as [ln|y] eqn:En; simpl;
    [|unfold int_log10 in En; destruct (n <=? 0); [|discriminate];
      injection En as <-; intros H; injection H as <-; auto].
  apply int_log10_ok_pos in En.
  destruct (lm + 1 + k <? ln + 1); [|intros H; injection H as <-; auto].
  rewrite aplicar_padding_spec by lia. simpl.
  rewrite potencia_mod_p_spec by lia. discriminate.
Qed.

Lemma cifrar_cadena_errores (s : list Z) (n e k : Z) (azar : nat -> nat -> Z) (j : nat) (x : exc) :
  cifrar_cadena_desde s n e k azar j = Err x -> x = ValueError \/ x = AssertionError.
Proof.
  revert j. induction s as [|c r IH]; intros j; cbn [cifrar_cadena_desde]; [discriminate|].
  destruct (cifrar_rsa c n e k (azar j)) as [c'|y] eqn:E; simpl.
  - destruct (cifrar_cadena_desde r n e k azar (S j)) as [cs|y] eqn:E'; simpl; [discriminate|].
    intros H; injection H as <-. exact (IH (S j) E').
  - intros H; injection H as <-. exact (cifrar_rsa_errores _ _ _ _ _ _ E).
Qed.

Lemma sin_divisor_spec (fuel : nat) (i n : Z) : 2 <= i ->
  (forall k, 2 <= k < i -> ~ (k | n)) -> sin_divisor fuel i n = true ->
  forall k, 2 <= k < n -> ~ (k | n).
Proof.
  revert i. induction fuel as [|f IH]; intros i Hi Hinv Hs; cbn [sin_divisor] in Hs;
    [discriminate|].
  destruct (Z.ltb_spec n (i * i)) as [Hlt|Hge].
  - intros k Hk [m Hm]. destruct (Z.lt_ge_cases k i) as [Hki|Hki].
    + apply (Hinv k); [lia|]. exists m. exact Hm.
    + assert (Hm2 : 2 <= m) by nia.
      assert (Hmi : m < i) by nia.
      apply (Hinv m); [lia|]. exists k. lia.
  - apply andb_true_iff in Hs as [Hd Hs]. apply negb_true_iff, Z.eqb_neq in Hd.
    apply (IH (i + 1)); [lia| |exact Hs].
    intros k Hk Hdiv. destruct (Z.eq_dec k i) as [->|Hne].
    + apply Hd. apply Z.mod_divide; [lia|exact Hdiv].
    + apply (Hinv k); [lia|exact Hdiv].
Qed.

Lemma primo_rapido_spec (n : Z) : primo_rapido n = true -> Z.prime n.
Proof.
  unfold primo_rapido. intros H. apply andb_true_iff in H as [H1 H2]. apply Z.ltb_lt in H1.
  split; [exact H1|]. intros k Hk.
  apply (sin_divisor_spec _ 2 n ltac:(lia) ltac:(intros; lia) H2). lia.
Qed.

Lemma clave_generada (min_primo max_primo : Z) (azar_p : nat -> Z)
    (azar_e : Z -> nat -> Z) (intentos : nat) (n e d : Z) :
  randrange_impar azar_e ->
  generar_claves min_primo max_primo azar_p azar_e intentos = Ok (n, e, d) ->
  clave_rsa n e d.
Proof.
  intros Hr H.
  destruct (generar_claves_spec _ _ _ _ _ _ _ _ H)
    as (p & q & Hp & Hq & Hne & _ & _ & Hn & [j Hj] & _ & Hinv & Hd & _).
  pose proof (Z.prime_ge_2 p Hp). pose proof (Z.prime_ge_2 q Hq).
  destruct (Hr ((p - 1) * (q - 1)) j ltac:(nia)) as [He _]. rewrite <- Hj in He.
  exists p, q. repeat (split; [assumption|]). split; [lia|]. split; [lia|]. exact Hinv.
Qed.

(** One value: encryption succeeds and decryption inverts it. *)
Lemma rsa_ida_vuelta (n e d m k : Z) (azar : nat -> Z) :
  clave_rsa n e d -> digitos_azar azar ->
  1 <= m -> 0 <= k -> num_cifras m + k < num_cifras n ->
  exists c, cifrar_rsa m n e k azar = Ok c /\ descifrar_rsa c n d k = Ok m.
Proof.
  intros (p & q & Hp & Hq & Hne & Hn & He & Hd & Hinv) Had Hm Hk Hc.
  pose proof (Z.prime_ge_2 p Hp). pose proof (Z.prime_ge_2 q Hq).
  pose proof (sufijo_bound k azar Hk Had) as Hs.
  set (s := int_of_str (map azar (seq 0 (Z.to_nat k)))) in *.
  pose proof (Z.pow_nonneg 10 k ltac:(lia)).
  assert (HP : 0 <= m * 10 ^ k + s < n)
    by (split; [nia|apply padding_menor_modulo; nia]).
  exists ((m * 10 ^ k + s) ^ e mod n). split; [apply cifrar_rsa_ok; nia|].
  unfold descifrar_rsa. rewrite potencia_mod_p_spec by nia. cbn [bind].
  rewrite Z.mod_pow_l, <- Z.pow_mul_r by lia.
  set (phi := (p - 1) * (q - 1)) in *.
  assert (Hed : e * d = 1 + (e * d / phi) * phi).
  { rewrite (Z.div_mod (e * d) phi) at 1 by nia. rewrite Hinv. ring. }
  assert (Ht : 0 <= e * d / phi) by (apply Z.div_pos; nia).
  rewrite Hed, Hn. unfold phi. rewrite rsa_correcto by (try assumption; nia).
  apply eliminar_padding_aplicado; assumption.
Qed.

(** Characters that fit the key: a code point of at least 1 whose digit
    count plus the padding stays below that of the modulus. *)
Lemma cadena_ida_vuelta (n e d k : Z) (azar : nat -> nat -> Z) (s : list Z) (j : nat) :
  clave_rsa n e d -> (forall j i, 0 <= azar j i <= 9) -> 0 <= k ->
  Forall (fun c => 1 <= c <= 1114111 /\ num_cifras c + k < num_cifras n) s ->
  exists cs, cifrar_cadena_desde s n e k azar j = Ok cs /\ descifrar_cadena_rsa cs n d k = Ok s.
Proof.
  intros H Had Hk Hs. revert j.
  induction Hs as [|c r [Hc1 Hc2] _ IH]; intros j.
  - exists []. split; reflexivity.
  - destruct (rsa_ida_vuelta _ _ _ c k (azar j) H (Had j) ltac:(lia) Hk Hc2)
      as (c' & Ec & Dc).
    destruct (IH (S j)) as (cs & Ecs & Dcs).
    exists (c' :: cs). cbn [cifrar_cadena_desde]. rewrite Ec. simpl. rewrite Ecs.
    split; [reflexivity|]. cbn [descifrar_cadena_rsa]. rewrite Dc. simpl.
    rewrite chr_ok by lia. simpl. rewrite Dcs. reflexivity.
Qed.

Lemma romper_clave_generada (min_primo max_primo : Z) (azar_p : nat -> Z)
    (azar_e : Z -> nat -> Z) (intentos : nat) (n e d : Z) :
  randrange_impar azar_e ->
  generar_claves min_primo max_primo azar_p azar_e intentos = Ok (n, e, d) ->
  1 < e -> romper_clave n e = Ok d.
Proof.
  intros Hr H He1.
  destruct (generar_claves_spec _ _ _ _ _ _ _ _ H)
    as (p & q & Hp & Hq & Hne & Hpr & Hqr & -> & [j Hj] & Hc & Hinv & Hd & ->).
  pose proof (Z.prime_ge_2 p Hp). pose proof (Z.prime_ge_2 q Hq).
  destruct (Hr ((p - 1) * (q - 1)) j ltac:(nia)) as [He _]. rewrite <- Hj in He.
  unfold romper_clave. rewrite euler_pq by assumption.
  destruct (Z.ltb_spec 1 e); [|lia]. destruct (Z.ltb_spec e ((p - 1) * (q - 1))); [|lia].
  unfold inversa_mod_p, coprimos. rewrite Z.gcd_comm, Hc. reflexivity.
Qed.

(** ** Primes *)

(** [siguiente_primo(n)] is the least prime above [n], for every integer
    [n]. *)
Theorem siguiente_primo_minimo (n : Z) :
  n < siguiente_primo n /\ Z.prime (siguiente_primo n) /\
  forall x, n < x < siguiente_primo n -> ~ Z.prime x.
Proof. apply siguiente_primo_spec. Qed.

(** [anterior_primo(n)] is the greatest prime below [n] when [n > 2], and
    the sentinel [NE] when [n <= 2]. *)
Theorem anterior_primo_maximo (n : Z) :
  match anterior_primo n with
  | Some p => 2 < n /\ Z.prime p /\ p < n /\ forall x, p < x < n -> ~ Z.prime x
  | None => n <= 2
  end.
Proof.
  pose proof (anterior_primo_spec n) as Hs.
  destruct (anterior_primo n) as [p|] eqn:E; [|exact Hs].
  destruct Hs as (H2 & Hp & Hlt). split; [exact H2|split; [exact Hp|split; [exact Hlt|]]].
  unfold anterior_primo in E. destruct (Z.ltb_spec 2 n); [|discriminate].
  injection E as <-. intros x Hx. apply (bajar_primo_max (Z.to_nat n) (n - 1)); lia.
Qed.



(** ** Strings *)





(** [ataque_texto_plano] recovers a text encrypted without padding under a
    key of [generar_claves] whose public exponent is above 1. *)
Theorem ataque_texto_plano_recupera (min_primo max_primo : Z) (azar_p : nat -> Z)
    (azar_e : Z -> nat -> Z) (intentos : nat) (n e d : Z) (azar : nat -> nat -> Z)
    (s : list Z) :
  randrange_impar azar_e -> (forall j i, 0 <= azar j i <= 9) ->
  generar_claves min_primo max_primo azar_p azar_e intentos = Ok (n, e, d) -> 1 < e ->
  Forall (fun c => 1 <= c <= 1114111 /\ num_cifras c < num_cifras n) s ->
  exists cs, cifrar_cadena_rsa s n e 0 azar = Ok cs /\ ataque_texto_plano cs n e = Ok s.
Proof.
  intros Hr Had H He Hs.
  assert (Hs0 : Forall (fun c => 1 <= c <= 1114111 /\ num_cifras c + 0 < num_cifras n) s).
  { eapply Forall_impl; [|exact Hs]. intros c Hc. cbv beta in *. lia. }
  destruct (cadena_ida_vuelta _ _ _ 0 azar s O (clave_generada _ _ _ _ _ _ _ _ Hr H) Had
              ltac:(lia) Hs0)
    as (cs & E & D).
  exists cs. split; [exact E|]. unfold ataque_texto_plano.
  rewrite (romper_clave_generada _ _ _ _ _ _ _ _ Hr H He). exact D.
Qed.

Lemma ataque_texto_plano_recupera_witness :
  exists cs, cifrar_cadena_rsa [72; 105] 2173 7 0 (fun _ _ => 5) = Ok cs /\
             ataque_texto_plano cs 2173 7 = Ok [72; 105].
Proof.
  apply (ataque_texto_plano_recupera 10 100 az_p az_e 5 2173 7 1783 (fun _ _ => 5) [72; 105]
           az_e_randrange); [intros; lia|vm_compute; reflexivity|lia|].
  constructor; [split; [lia|vm_compute; reflexivity]|].
  constructor; [split; [lia|vm_compute; reflexivity]|constructor].
Defined.

(** ** [criptochat.py] *)

(** A key with a 15-digit modulus: [p = 10000019], [q = 10000079]. *)
Lemma clave_grande : clave_rsa 100000980001501 65537 51617139553649.
Proof.
  exists 10000019, 10000079.
  split; [apply primo_rapido_spec; vm_compute; reflexivity|].
  split; [apply primo_rapido_spec; vm_compute; reflexivity|].
  split; [lia|]. split; [reflexivity|]. split; [lia|]. split; [lia|].
  vm_compute; reflexivity.
Qed.

Lemma test_message_cabe :
  Forall (fun c => 1 <= c <= 1114111 /\ num_cifras c <= 3) test_message.
Proof.
  assert (Hb : forallb (fun c => (1 <=? c) && (c <=? 1114111) && (num_cifras c <=? 3))
                 test_message = true) by (vm_compute; reflexivity).
  rewrite forallb_forall in Hb. apply Forall_forall. intros c Hc.
  specialize (Hb c Hc). rewrite !andb_true_iff, !Z.leb_le in Hb. lia.
Qed.

Lemma valid_clave_rsa (n e d : Z) (azar : nat -> nat -> Z) :
  clave_rsa n e d -> (forall j i, 0 <= azar j i <= 9) -> 14 <= num_cifras n ->
  valid n e d azar = Ok true.
Proof.
  intros H Had Hn.
  assert (Hfit : Forall (fun c => 1 <= c <= 1114111 /\ num_cifras c + PADDING_DIGITS < num_cifras n)
                   test_message).
  { eapply Forall_impl; [|exact test_message_cabe]. intros c Hc. cbv beta in *.
    unfold PADDING_DIGITS. lia. }
  destruct (cadena_ida_vuelta n e d PADDING_DIGITS azar test_message O H Had
              ltac:(unfold PADDING_DIGITS; lia) Hfit) as (cs & E & D).
  unfold valid, cifrar_cadena_rsa. rewrite E. cbn [bind]. rewrite D.
  destruct (list_eq_dec Z.eq_dec test_message test_message); [reflexivity|contradiction].
Qed.



Lemma descifrar_inbox_app (us : usuarios) (l1 l2 : list contenedor) (n d padding : Z) :
  descifrar_inbox us (l1 ++ l2) n d padding =
  match descifrar_inbox us l1 n d padding with
  | Fallo x => Fallo x
  | Bien r1 =>
      match descifrar_inbox us l2 n d padding with
      | Fallo x => Fallo x
      | Bien r2 => Bien (r1 ++ r2)
      end
  end.
Proof.
  induction l1 as [|[[uid date] msg] r IH]; simpl.
  - destruct (descifrar_inbox us l2 n d padding); reflexivity.
  - destruct (find_user us uid) as [name|x]; [|reflexivity].
    destruct (match msg with
              | None => Bien MENSAJE_CORRUPTO
              | Some m =>
                  match descifrar_cadena_rsa m n d padding with
                  | Ok t => Bien t
                  | Err ValueError => Bien MENSAJE_CORRUPTO
                  | Err x => Fallo (Exc x)
                  end
              end) as [t|x]; [|reflexivity].
    rewrite IH. destruct (descifrar_inbox us r n d padding) as [r1|x]; [|reflexivity].
    destruct (descifrar_inbox us l2 n d padding); reflexivity.
Qed.



Lemma cifrar_rsa_assert (m n e k : Z) (azar : nat -> Z) :
  1 <= m -> 1 <= n -> 0 <= e -> 0 <= k -> num_cifras n <= num_cifras m + k ->
  cifrar_rsa m n e k azar = Err AssertionError.
Proof.
  intros Hm Hn He Hk Hc. unfold cifrar_rsa.
  destruct (Z.ltb_spec m 0); [lia|]. destruct (Z.ltb_spec n 0); [lia|].
  destruct (Z.ltb_spec e 0); [lia|]. destruct (Z.ltb_spec k 0); [lia|]. simpl.
  destruct (num_cifras_spec m ltac:(lia)) as (Hlm & _).
  destruct (num_cifras_spec n ltac:(lia)) as (Hln & _).
  rewrite Hlm. simpl. rewrite Hln. simpl.
  destruct (Z.ltb_spec (num_cifras m - 1 + 1 + k) (num_cifras n - 1 + 1)); [lia|].
  reflexivity.
Qed.





Lemma catch_descifrar_rango (message : option (list Z)) (n d k : Z) (s : list Z) :
  catch_descifrar message n d k = Some s -> Forall (fun ch => 1 <= ch <= 1114111) s.
Proof.
  unfold catch_descifrar. destruct message as [m|]; [|discriminate].
  destruct (descifrar_cadena_rsa m n d k) as [t|x] eqn:E; [|discriminate].
  intros H. injection H as <-. exact (descifrar_cadena_rango _ _ _ _ _ E).
Qed.

Lemma recifrar_conserva (captura : exc -> bool) (temp : list contenedor) (n e d k : Z)
    (azar : nat -> nat -> nat -> Z) (j : nat) (acc : list contenedor) :
  clave_rsa n e d -> (forall j c i, 0 <= azar j c i <= 9) -> 0 <= k -> 7 + k < num_cifras n ->
  Forall (fun c => forall s, snd c = Some s -> Forall (fun ch => 1 <= ch <= 1114111) s) temp ->
  exists l', recifrar captura temp n e k azar j acc = (acc ++ l', None) /\
    Forall2 (fun c c' => fst c = fst c' /\ catch_descifrar (snd c') n d k = snd c) temp l'.
Proof.
  intros Hc Had Hk Hn Ht. revert j acc.
  induction Ht as [|[[u dt] msg] r Hs _ IH]; intros j acc.
  - exists []. rewrite app_nil_r. split; [reflexivity|constructor].
  - simpl in Hs. destruct msg as [s|].
    + assert (Hf : Forall (fun c => 1 <= c <= 1114111 /\ num_cifras c + k < num_cifras n) s).
      { eapply Forall_impl; [|exact (Hs s eq_refl)]. cbv beta. intros c Hr.
        pose proof (num_cifras_unicode c Hr). lia. }
      destruct (cadena_ida_vuelta n e d k (azar j) s O Hc (Had j) Hk Hf) as (cs & E & D).
      destruct (IH (S j) (acc ++ [(u, dt, Some cs)])) as (l' & R & F).
      exists ((u, dt, Some cs) :: l'). simpl. unfold cifrar_cadena_rsa. rewrite E, R.
      rewrite <- app_assoc. split; [reflexivity|].
      constructor; [|exact F]. simpl. unfold catch_descifrar. rewrite D. auto.
    + destruct (IH (S j) (acc ++ [(u, dt, None)])) as (l' & R & F).
      exists ((u, dt, None) :: l'). simpl. rewrite R, <- app_assoc.
      split; [reflexivity|]. constructor; [|exact F]. simpl. auto.
Qed.

Lemma recifrar_sin_excepcion (captura : exc -> bool) (temp : list contenedor) (n e k : Z)
    (azar : nat -> nat -> nat -> Z) (j : nat) (acc : list contenedor) :
  captura ValueError = true -> captura AssertionError = true ->
  exists l', recifrar captura temp n e k azar j acc = (acc ++ l', None) /\
    Forall2 (fun c c' => fst c = fst c') temp l'.
Proof.
  intros Hv Ha. revert j acc.
  induction temp as [|[[u dt] msg] r IH]; intros j acc.
  - exists []. rewrite app_nil_r. split; [reflexivity|constructor].
  - simpl. destruct msg as [s|].
    + destruct (cifrar_cadena_rsa s n e k (azar j)) as [cs|x] eqn:E.
      * destruct (IH (S j) (acc ++ [(u, dt, Some cs)])) as (l' & R & F).
        exists ((u, dt, Some cs) :: l'). rewrite R, <- app_assoc. auto.
      * assert (Hx : captura x = true).
        { destruct (cifrar_cadena_errores _ _ _ _ _ _ _ E) as [-> | ->]; assumption. }
        rewrite Hx.
        destruct (IH (S j) (acc ++ [(u, dt, None)])) as (l' & R & F).
        exists ((u, dt, None) :: l'). rewrite R, <- app_assoc. auto.
    + destruct (IH (S j) (acc ++ [(u, dt, None)])) as (l' & R & F).
      exists ((u, dt, None) :: l'). rewrite R, <- app_assoc. auto.
Qed.

Lemma descifrar_temp_forall2 (R : contenedor -> contenedor -> Prop)
    (l l' : list contenedor) (n d k : Z) :
  Forall2 R (descifrar_temp l n d k) l' ->
  Forall2 (fun c c' => R (fst c, catch_descifrar (snd c) n d k) c') l l'.
Proof.
  revert l'. induction l as [|[[u dt] msg] r IH]; intros l' H; inversion H; subst.
  - constructor.
  - constructor; [assumption|]. apply IH. assumption.
Qed.

Lemma descifrar_temp_rango (l : list contenedor) (n d k : Z) :
  Forall (fun c => forall s, snd c = Some s -> Forall (fun ch => 1 <= ch <= 1114111) s)
    (descifrar_temp l n d k).
Proof.
  induction l as [|[[u dt] msg] r IH]; constructor; [|exact IH].
  simpl. apply catch_descifrar_rango.
Qed.

Lemma change_inbox_key_lectura (l : list contenedor) (prev_n prev_d new_n new_e new_d padding : Z)
    (azar : nat -> nat -> nat -> Z) :
  clave_rsa new_n new_e new_d -> (forall j c i, 0 <= azar j c i <= 9) -> 0 <= padding ->
  7 + padding < num_cifras new_n ->
  exists l', change_inbox_key (Some l) prev_n prev_d new_n new_e padding azar = (Some l', None) /\
    Forall2 (fun c c' => fst c = fst c' /\
               catch_descifrar (snd c') new_n new_d padding = catch_descifrar (snd c) prev_n prev_d padding)
      l l'.
Proof.
  intros Hc Had Hk Hn.
  destruct l as [|c0 l0]; [exists []; split; [reflexivity|constructor]|].
  destruct (recifrar_conserva es_assertion (descifrar_temp (c0 :: l0) prev_n prev_d padding)
              new_n new_e new_d padding azar O [] Hc Had Hk Hn (descifrar_temp_rango _ _ _ _))
    as (l' & R & F).
  exists l'. unfold change_inbox_key. rewrite R. split; [reflexivity|].
  exact (descifrar_temp_forall2 _ _ _ _ _ _ F).
Qed.





(** [User.change_inbox_padding] never lets an exception out, whatever the
    key and the padding: an inbox that is [None] stays so, and otherwise the
    new inbox has one container per old one, with its sender and date. *)
Theorem change_inbox_padding_sin_excepcion (inbox : option (list contenedor))
    (n e d padding padding_digits : Z) (azar : nat -> nat -> nat -> Z) :
  match inbox with
  | None => change_inbox_padding inbox n e d padding padding_digits azar = (None, None)
  | Some l => exists l', change_inbox_padding inbox n e d padding padding_digits azar = (Some l', None)
                         /\ Forall2 (fun c c' => fst c = fst c') l l'
  end.
Proof.
  destruct inbox as [l|]; [|reflexivity].
  destruct l as [|c0 l0]; [exists []; split; [reflexivity|constructor]|].
  destruct (recifrar_sin_excepcion es_value_o_assertion (descifrar_temp (c0 :: l0) n d padding)
              n e padding_digits azar O [] eq_refl eq_refl) as (l' & R & F).
  exists l'. unfold change_inbox_padding. rewrite R. split; [reflexivity|].
  apply descifrar_temp_forall2 in F. exact F.
Qed.

Lemma clave_19_cifras : clave_rsa 1000000016000000063 65537 648946405777194593.
Proof.
  exists 1000000007, 1000000009.
  split; [apply primo_rapido_spec; vm_compute; reflexivity|].
  split; [apply primo_rapido_spec; vm_compute; reflexivity|].
  split; [lia|]. split; [reflexivity|]. split; [lia|]. split; [lia|].
  vm_compute; reflexivity.
Qed.


